(** * phpstan-vscode: suppression engine, config resolution, cached reader
      and PHPStan Pro launch, embedded from the TypeScript sources

    Sources embedded here:
    - [src/unnamed/part_001]: [CachedFileReader], [readConfigFile],
      [getPHPStanConfig], [getErrorsToIgnore], [matchesStringOrRegexp],
      [isIgnored], [filterBaselineErrorsForFile];
    - [src/server/src/lib/phpstan/pro/pro.ts]: [launchPro].

    Conventions.
    - A JavaScript string is a Rocq [string]; the character with code [n]
      stands for the UTF-16 code unit [n], so the model covers strings whose
      code units are below 256.
    - [undefined] / a missing property is [None].
    - A call that throws a [TypeError] returns [None] in the [option] monad;
      [Some v] is a normal return of [v].
    - An integer-valued JavaScript [number] is a [Z] (rule quotas). What
      [parseInt] returns is a [Pro.number]: an integer up to 2^53 in
      magnitude as it is, a larger one marked as rounded to a double, and
      [NaN]. *)

From Stdlib Require Import Ascii String ZArith.
From stdpp Require Import gmap strings list fin_maps pretty.

Local Open Scope string_scope.
Local Open Scope list_scope.
Local Open Scope stdpp_scope.

(** ** JavaScript string primitives *)

Module Js.

(** [haystack.includes(needle)]: [needle] occurs as a contiguous substring. *)
Fixpoint includes (needle haystack : string) : bool :=
  String.prefix needle haystack ||
  match haystack with
  | EmptyString => false
  | String _ rest => includes needle rest
  end.

(** Truthiness of an optional string: [undefined] and [""] are falsy. *)
Definition truthy (s : option string) : bool :=
  match s with
  | Some EmptyString | None => false
  | Some (String _ _) => true
  end.

End Js.

(** ** A backtracking regular-expression matcher

    The fragment of ECMAScript regular expressions used by [launchPro]'s
    progress pattern: single-character atoms, sequencing, greedy [+], lazy
    [*?] and numbered capture groups, with the backtracking order of the
    language standard (continuation-passing, leftmost alternative first). *)

Module Regex.

Inductive regex : Type :=
| Atom (p : ascii → bool)
| Seq (r1 r2 : regex)
| Star (r : regex)
| StarLazy (r : regex)
| Group (n : nat) (r : regex).

(** [r+] is [r r*]. *)
Definition Plus (r : regex) : regex := Seq r (Star r).

Definition Captures : Type := gmap nat string.

(** The text consumed between the suffix [s] and its own suffix [s']. *)
Definition consumed (s s' : string) : string :=
  String.substring 0 (String.length s - String.length s') s.

Section Matcher.
Context {A : Type}.

Definition Cont : Type := string → Captures → option A.

(** Greedy iteration: try one more round before the continuation. A round
    that consumes nothing is rejected, as the standard's RepeatMatcher does. *)
Fixpoint repeatGreedy (step : string → Captures → Cont → option A)
    (fuel : nat) (s : string) (c : Captures) (k : Cont) : option A :=
  match fuel with
  | O => k s c
  | S fuel' =>
      match step s c (λ s' c',
              if decide (String.length s' < String.length s)%nat
              then repeatGreedy step fuel' s' c' k else None) with
      | Some a => Some a
      | None => k s c
      end
  end.

(** Lazy iteration: try the continuation before one more round. *)
Fixpoint repeatLazy (step : string → Captures → Cont → option A)
    (fuel : nat) (s : string) (c : Captures) (k : Cont) : option A :=
  match k s c with
  | Some a => Some a
  | None =>
      match fuel with
      | O => None
      | S fuel' =>
          step s c (λ s' c',
            if decide (String.length s' < String.length s)%nat
            then repeatLazy step fuel' s' c' k else None)
      end
  end.

(** [run r s c k]: match [r] at the start of [s], then continue with [k]. The
    fuel handed to an iteration is the length of the remaining input, which
    bounds the number of rounds since each consumes a character. *)
Fixpoint run (r : regex) (s : string) (c : Captures) (k : Cont) : option A :=
  match r with
  | Atom p =>
      match s with
      | String a s' => if p a then k s' c else None
      | EmptyString => None
      end
  | Seq r1 r2 => run r1 s c (λ s' c', run r2 s' c' k)
  | Star r' => repeatGreedy (run r') (String.length s) s c k
  | StarLazy r' => repeatLazy (run r') (String.length s) s c k
  | Group n r' => run r' s c (λ s' c', k s' (<[n := consumed s s']> c'))
  end.

End Matcher.

(** One match: the captures (group 0 is the whole match) and the input left
    after the match. *)
Record Match : Type := { captures : Captures; rest : string }.

Definition matchAt (r : regex) (s : string) : option Match :=
  run (Group 0 r) s ∅ (λ s' c, Some {| captures := c; rest := s' |}).

(** [exec] without the sticky flag: the match at the leftmost position that
    has one. *)
Fixpoint search (r : regex) (s : string) : option Match :=
  match matchAt r s with
  | Some m => Some m
  | None =>
      match s with
      | EmptyString => None
      | String _ s' => search r s'
      end
  end.

(** [RegExp.prototype.test] for a pattern without the [g] and [y] flags. *)
Definition test (r : regex) (s : string) : bool := bool_decide (is_Some (search r s)).

(** [s.matchAll(/r/g)]: successive matches, each search starting where the
    previous match ended (one code unit further after an empty match). *)
Fixpoint matchAllFrom (r : regex) (fuel : nat) (s : string) : list Captures :=
  match fuel with
  | O => []
  | S fuel' =>
      match search r s with
      | None => []
      | Some m =>
          captures m ::
          match captures m !! 0%nat, rest m with
          | Some EmptyString, EmptyString => []
          | Some EmptyString, String _ s' => matchAllFrom r fuel' s'
          | _, s' => matchAllFrom r fuel' s'
          end
      end
  end.

Definition matchAll (r : regex) (s : string) : list Captures :=
  matchAllFrom r (S (String.length s)) s.

(** Character classes. [\d] is [0-9]; [\s] restricted to code units below 256
    is TAB, LF, VT, FF, CR, SPACE and NBSP; [.] excludes LF and CR. *)
Definition lit (a b : ascii) : bool := bool_decide (a = b).

Definition digit (a : ascii) : bool :=
  let n := nat_of_ascii a in bool_decide (48 ≤ n ≤ 57)%nat.

Definition space (a : ascii) : bool :=
  let n := nat_of_ascii a in
  bool_decide (9 ≤ n ≤ 13)%nat || bool_decide (n = 32%nat) || bool_decide (n = 160%nat).

Definition dot (a : ascii) : bool :=
  let n := nat_of_ascii a in negb (bool_decide (n = 10%nat) || bool_decide (n = 13%nat)).

End Regex.

(** The interface the suppression engine needs from a [RegExp] value that the
    configuration parser hands over: [re.test(target)]. The parser itself
    ([parseNeonFile]) is not among the embedded sources, so the engine is
    generic in the representation of its patterns; patterns are taken without
    the [g]/[y] flags, so that [test] does not depend on [lastIndex]. *)
Class RegExpLike (RegExp : Type) : Type := { regexp_test : RegExp → string → bool }.

#[export] Instance regex_RegExpLike : RegExpLike Regex.regex :=
  {| regexp_test := Regex.test |}.

(** ** Data model of the suppression engine ([src/unnamed/part_001]) *)

(** [Diagnostic] of vscode-languageserver. The engine reads [message] only;
    the other fields travel with the diagnostic. *)
Module Diag.
Record t : Type := {
  message : string;
  range : (nat * nat) * (nat * nat);
  severity : option nat;
  source : option string
}.
End Diag.

(** [string | RegExp], the type of a rule's [message] and of the second
    argument of [matchesStringOrRegexp]. *)
Inductive Matcher (RegExp : Type) : Type :=
| MString (s : string)
| MRegExp (re : RegExp).
Arguments MString {RegExp} s.
Arguments MRegExp {RegExp} re.

(** The object form of [PHPStanIgnoreError] as a run-time value: every
    property may be missing. [message] is required by the declared type, but
    the object [{ ...re }] built from a [RegExp] has no own enumerable
    property, hence none of the four. [count] is an integer, as in the
    spec's data model; a negative one is kept as the code would meet it. *)
Module Rule.
Record t (RegExp : Type) : Type := {
  message : option (Matcher RegExp);
  count : option Z;
  path : option string;
  paths : option (list string)
}.
Arguments message {RegExp} _.
Arguments count {RegExp} _.
Arguments path {RegExp} _.
Arguments paths {RegExp} _.

(** The object literal [{}]. *)
Definition empty {RegExp : Type} : t RegExp :=
  {| message := None; count := None; path := None; paths := None |}.

(** [ignoredError.count--] *)
Definition decrement {RegExp : Type} (o : t RegExp) : t RegExp :=
  {| message := message o; count := Z.pred <$> count o;
     path := path o; paths := paths o |}.
End Rule.

(** An element of the array returned by [getErrorsToIgnore]:
    [PHPStanIgnoreError | InvalidNeonValue]. *)
Inductive PHPStanIgnoreError (RegExp : Type) : Type :=
| IgnoreObject (o : Rule.t RegExp)
| IgnoreString (s : string)
| IgnoreRegExp (re : RegExp)
| IgnoreUndefined
| InvalidNeonValue (source : string).
Arguments IgnoreObject {RegExp} o.
Arguments IgnoreString {RegExp} s.
Arguments IgnoreRegExp {RegExp} re.
Arguments IgnoreUndefined {RegExp}.
Arguments InvalidNeonValue {RegExp} source.

(** ** The suppression engine on values

    [filterBaselineErrorsForFile] builds [matchingErrors] as a fresh array
    whose object elements are fresh copies, so within one call the array is
    a list of values owned by the call, threaded through [isIgnored]. The
    module [Store] below keeps object identity and proves that view sound. *)

Module Suppression.
Section Engine.
Context {RegExp : Type} `{!RegExpLike RegExp}.

Local Abbreviation IgnoreError := (PHPStanIgnoreError RegExp).

(** [matchesStringOrRegexp], part_001 lines 132-140. *)
Definition matchesStringOrRegexp (target : string) (matcher : Matcher RegExp) : bool :=
  match matcher with
  | MString s => Js.includes s target
  | MRegExp re => regexp_test re target
  end.

(** [typeof ignoredError.count === 'number' && !ignoredError.count] *)
Definition countIsZero (o : Rule.t RegExp) : bool :=
  match Rule.count o with
  | Some n => bool_decide (n = 0%Z)
  | None => false
  end.

(** The update made at line 160-162: [if (ignoredError.count) count--]. A
    rule that gets here has a missing or a non-zero count. *)
Definition consume (o : Rule.t RegExp) : Rule.t RegExp :=
  match Rule.count o with
  | Some n => if bool_decide (n = 0%Z) then o else Rule.decrement o
  | None => o
  end.

(** [isIgnored], part_001 lines 142-168, returning its verdict and the array
    as the call leaves it. An [undefined] element is passed over (none of the
    [typeof] tests holds). An object without [message] whose count does not
    skip it makes [matcher.test] throw on [undefined]; so does an
    [InvalidNeonValue], an object known by its [invalid] and [source]
    properties only, which [filterBaselineErrorsForFile] never passes on. *)
Fixpoint isIgnored (error : Diag.t) (ignoredErrors : list IgnoreError)
    : option (bool * list IgnoreError) :=
  match ignoredErrors with
  | [] => Some (false, [])
  | ignoredError :: later =>
      let continue :=
        '(verdict, later') ← isIgnored error later;
        Some (verdict, ignoredError :: later') in
      match ignoredError with
      | IgnoreString s =>
          if matchesStringOrRegexp (Diag.message error) (MString s)
          then Some (true, ignoredErrors) else continue
      | IgnoreRegExp re =>
          if matchesStringOrRegexp (Diag.message error) (MRegExp re)
          then Some (true, ignoredErrors) else continue
      | IgnoreObject o =>
          if countIsZero o then continue
          else
            match Rule.message o with
            | None => None
            | Some matcher =>
                if matchesStringOrRegexp (Diag.message error) matcher
                then Some (true, IgnoreObject (consume o) :: later)
                else continue
            end
      | InvalidNeonValue _ => None
      | IgnoreUndefined => continue
      end
  end.

(** The callback of [ignoreErrors.filter], lines 180-202. The test on line
    195 reads [!error.path && !error.path]. Logging an invalid entry does not
    affect the result. *)
Definition matchesCurrentFile (originalFilePath : string) (error : IgnoreError) : bool :=
  match error with
  | IgnoreUndefined => false
  | IgnoreString s => Js.truthy (Some s)
  | IgnoreRegExp _ => true
  | InvalidNeonValue _ => false
  | IgnoreObject o =>
      if negb (Js.truthy (Rule.path o)) && negb (Js.truthy (Rule.path o)) then true
      else
        let paths :=
          match Rule.paths o with
          | Some ps => ps
          | None => option_list (Rule.path o)
          end in
        existsb (λ errorPath, Js.includes errorPath originalFilePath) paths
  end.

(** The callback of [.map], line 203: [typeof err === 'object' ? { ...err } : err].
    A [RegExp] is an object, and spreading it yields [{}]. *)
Definition spread (err : IgnoreError) : IgnoreError :=
  match err with
  | IgnoreObject o => IgnoreObject o
  | IgnoreRegExp _ => IgnoreObject Rule.empty
  | InvalidNeonValue src => InvalidNeonValue src
  | IgnoreString s => IgnoreString s
  | IgnoreUndefined => IgnoreUndefined
  end.

(** [matchingErrors], lines 179-203. *)
Definition matchingErrors (originalFilePath : string) (ignoreErrors : list IgnoreError)
    : list IgnoreError :=
  spread <$> List.filter (matchesCurrentFile originalFilePath) ignoreErrors.

(** The loop of lines 205-211, from a given state of the rules: the
    diagnostics pushed to [finalErrors] and the rules as the loop leaves
    them. *)
Fixpoint filterLoop (errors : list Diag.t) (rules : list IgnoreError)
    (finalErrors : list Diag.t) : option (list Diag.t * list IgnoreError) :=
  match errors with
  | [] => Some (finalErrors, rules)
  | error :: errors' =>
      '(ignored, rules') ← isIgnored error rules;
      filterLoop errors' rules' (if (ignored : bool) then finalErrors else finalErrors ++ [error])
  end.

(** [filterBaselineErrorsForFile], lines 170-214, after [getErrorsToIgnore]
    has produced [ignoreErrors]. *)
Definition filterBaselineErrorsForFile (ignoreErrors : list IgnoreError)
    (originalFilePath : string) (errors : list Diag.t) : option (list Diag.t) :=
  fst <$> filterLoop errors (matchingErrors originalFilePath ignoreErrors) [].

(** *** Attribution of a suppression to a rule

    Specification-side readings of one scan of [isIgnored]: which rule stops
    the scan, and how often a given position does so during a pass. *)

(** The scan stops at this rule: the branch of [isIgnored] that returns
    [true] is taken. *)
Definition ruleHits (error : Diag.t) (rule : IgnoreError) : bool :=
  match rule with
  | IgnoreString s => matchesStringOrRegexp (Diag.message error) (MString s)
  | IgnoreRegExp re => matchesStringOrRegexp (Diag.message error) (MRegExp re)
  | IgnoreObject o =>
      negb (countIsZero o) &&
      match Rule.message o with
      | Some matcher => matchesStringOrRegexp (Diag.message error) matcher
      | None => false
      end
  | IgnoreUndefined | InvalidNeonValue _ => false
  end.

(** What the scan leaves in place of the rule it stopped at. *)
Definition afterHit (rule : IgnoreError) : IgnoreError :=
  match rule with
  | IgnoreObject o => IgnoreObject (consume o)
  | _ => rule
  end.

(** Position of the first rule at which the scan stops. *)
Fixpoint firstHit (error : Diag.t) (rules : list IgnoreError) : option nat :=
  match rules with
  | [] => None
  | rule :: later => if ruleHits error rule then Some 0%nat else S <$> firstHit error later
  end.

(** Number of diagnostics of a pass that the rule at position [i] suppresses. *)
Fixpoint suppressedBy (i : nat) (errors : list Diag.t) (rules : list IgnoreError) : nat :=
  match errors with
  | [] => 0
  | error :: errors' =>
      match isIgnored error rules with
      | Some (_, rules') =>
          (if decide (firstHit error rules = Some i) then 1 else 0)
          + suppressedBy i errors' rules'
      | None => 0
      end
  end%nat.

(** Number of diagnostics of a pass that no rule before position [i] stops
    and whose message [matcher] matches: the matches the rule at [i] is
    offered, whatever its quota. *)
Fixpoint matchesOffered (i : nat) (matcher : Matcher RegExp)
    (errors : list Diag.t) (rules : list IgnoreError) : nat :=
  match errors with
  | [] => 0
  | error :: errors' =>
      match isIgnored error rules with
      | Some (_, rules') =>
          (if bool_decide (firstHit error (take i rules) = None)
              && matchesStringOrRegexp (Diag.message error) matcher
           then 1 else 0)
          + matchesOffered i matcher errors' rules'
      | None => 0
      end
  end%nat.

(** The scan throws if it gets to this rule: [matcher.test] is called on
    [undefined]. *)
Definition throws (rule : IgnoreError) : bool :=
  match rule with
  | IgnoreObject o =>
      negb (countIsZero o) &&
      match Rule.message o with Some _ => false | None => true end
  | InvalidNeonValue _ => true
  | IgnoreString _ | IgnoreRegExp _ | IgnoreUndefined => false
  end.

(** An entry of [ignoreErrors] that cannot make a pass throw: not a
    top-level [RegExp] (whose copy is [{}]), and if an object, one that
    carries the [message] its type declares. *)
Definition scannable (rule : IgnoreError) : bool :=
  match rule with
  | IgnoreObject o => match Rule.message o with Some _ => true | None => false end
  | IgnoreRegExp _ => false
  | IgnoreString _ | IgnoreUndefined | InvalidNeonValue _ => true
  end.

(** [l] with [x] put in front of position [n]. *)
Definition insertAt {A : Type} (n : nat) (x : A) (l : list A) : list A :=
  take n l ++ x :: drop n l.

End Engine.
End Suppression.

(** ** The suppression engine on a store

    The same code with object identity: the array returned by
    [getErrorsToIgnore] holds references to rule objects living in a store,
    [{ ...err }] allocates a new object, and [ignoredError.count--] writes
    through the reference it is given. Strings, patterns and [undefined] are
    immutable here and are held by value. *)

Module Store.
Section Heap.
Context {RegExp : Type} `{!RegExpLike RegExp}.

Definition loc : Type := positive.

(** An object of the store: a rule object or an [InvalidNeonValue]. *)
Inductive Obj : Type :=
| ORule (o : Rule.t RegExp)
| OInvalid (source : string).

(** An element of the array. *)
Inductive Ref : Type :=
| RObject (l : loc)
| RString (s : string)
| RRegExp (re : RegExp)
| RUndefined.

Local Abbreviation heap := (gmap loc Obj).

(** The value a reference stands for in a store. *)
Definition deref (h : heap) (r : Ref) : option (PHPStanIgnoreError RegExp) :=
  match r with
  | RObject l =>
      match h !! l with
      | Some (ORule o) => Some (IgnoreObject o)
      | Some (OInvalid src) => Some (InvalidNeonValue src)
      | None => None
      end
  | RString s => Some (IgnoreString s)
  | RRegExp re => Some (IgnoreRegExp re)
  | RUndefined => Some IgnoreUndefined
  end.

(** The locations an array refers to. *)
Definition locs (refs : list Ref) : list loc :=
  omap (λ r, match r with RObject l => Some l | _ => None end) refs.

(** Every reference of the array is bound in the store. *)
Definition closed (h : heap) (refs : list Ref) : Prop :=
  Forall (λ l, is_Some (h !! l)) (locs refs).

(** [isIgnored], lines 142-168: line 161 updates the object in place. A
    reference that is not bound does not occur in a closed store; the model
    lets the call throw there. *)
Fixpoint isIgnored (error : Diag.t) (ignoredErrors : list Ref) (h : heap)
    : option (bool * heap) :=
  match ignoredErrors with
  | [] => Some (false, h)
  | ignoredError :: later =>
      match ignoredError with
      | RString s =>
          if Suppression.matchesStringOrRegexp (Diag.message error) (MString s)
          then Some (true, h) else isIgnored error later h
      | RRegExp re =>
          if Suppression.matchesStringOrRegexp (Diag.message error) (MRegExp re)
          then Some (true, h) else isIgnored error later h
      | RObject l =>
          match h !! l with
          | Some (ORule o) =>
              if Suppression.countIsZero o then isIgnored error later h
              else
                match Rule.message o with
                | None => None
                | Some matcher =>
                    if Suppression.matchesStringOrRegexp (Diag.message error) matcher
                    then Some (true, <[l := ORule (Suppression.consume o)]> h)
                    else isIgnored error later h
                end
          | Some (OInvalid _) => None
          | None => None
          end
      | RUndefined => isIgnored error later h
      end
  end.

(** The callback of [.filter], lines 180-202: it only reads the store. *)
Definition matchesCurrentFile (h : heap) (originalFilePath : string) (error : Ref) : bool :=
  match deref h error with
  | Some v => Suppression.matchesCurrentFile originalFilePath v
  | None => false
  end.

(** The callback of [.map], line 203: an object (a [RegExp] included) is
    replaced by a newly allocated object holding its own enumerable
    properties; anything else is returned as it is. *)
Definition spread (err : Ref) (h : heap) : Ref * heap :=
  match err with
  | RObject l =>
      match h !! l with
      | Some obj => let l' := fresh (dom h) in (RObject l', <[l' := obj]> h)
      | None => (err, h)
      end
  | RRegExp _ =>
      let l' := fresh (dom h) in (RObject l', <[l' := ORule Rule.empty]> h)
  | RString _ | RUndefined => (err, h)
  end.

Fixpoint spreadAll (errs : list Ref) (h : heap) : list Ref * heap :=
  match errs with
  | [] => ([], h)
  | err :: errs' =>
      let '(err', h1) := spread err h in
      let '(rest, h2) := spreadAll errs' h1 in
      (err' :: rest, h2)
  end.

(** [matchingErrors], lines 179-203. *)
Definition matchingErrors (h : heap) (originalFilePath : string) (ignoreErrors : list Ref)
    : list Ref * heap :=
  spreadAll (List.filter (matchesCurrentFile h originalFilePath) ignoreErrors) h.

(** The loop of lines 205-211. *)
Fixpoint filterLoop (errors : list Diag.t) (rules : list Ref) (h : heap)
    (finalErrors : list Diag.t) : option (list Diag.t * heap) :=
  match errors with
  | [] => Some (finalErrors, h)
  | error :: errors' =>
      '(ignored, h') ← isIgnored error rules h;
      filterLoop errors' rules h'
        (if (ignored : bool) then finalErrors else finalErrors ++ [error])
  end.

(** [filterBaselineErrorsForFile], lines 177-213: the returned diagnostics
    and the store as the call leaves it. *)
Definition filterBaselineErrorsForFile (h : heap) (ignoreErrors : list Ref)
    (originalFilePath : string) (errors : list Diag.t) : option (list Diag.t * heap) :=
  let '(rules, h1) := matchingErrors h originalFilePath ignoreErrors in
  filterLoop errors rules h1 [].

End Heap.
End Store.

(** ** Configuration resolution ([getPHPStanConfig], [getErrorsToIgnore]) *)

Module Config.
Section Resolve.
Context {RegExp : Type}.

(** The [parameters] block: [ignoreErrors] and the scalar settings next to
    it (such as [level]), keyed by name. *)
Record Parameters : Type := {
  ignoreErrors : option (list (PHPStanIgnoreError RegExp));
  settings : gmap string string
}.

(** [PHPStanConfig], part_001 lines 92-97. *)
Record PHPStanConfig : Type := {
  includes : option (list string);
  parameters : option Parameters
}.

Definition joinSequences {A : Type} (a b : option (list A)) : option (list A) :=
  match a, b with
  | Some x, Some y => Some (x ++ y)
  | Some x, None => Some x
  | None, y => y
  end.

Definition joinParameters (a b : Parameters) : Parameters :=
  {| ignoreErrors := joinSequences (ignoreErrors a) (ignoreErrors b);
     settings := settings b ∪ settings a |}.

(** Modelled from the spec: [deepObjectJoin] of [shared/util], which is not
    among the sources. The spec (4.2) says of the merge: scalar keys from
    later-merged documents overwrite earlier ones; sequence-valued keys
    (notably [ignoreErrors]) are concatenated, not overwritten. The call site
    [entrypointFile = deepObjectJoin(entrypointFile, ...)] uses the returned
    object; the arguments are taken to be left as they are. *)
Definition deepObjectJoin (a b : PHPStanConfig) : PHPStanConfig :=
  {| includes := joinSequences (includes a) (includes b);
     parameters :=
       match parameters a, parameters b with
       | Some x, Some y => Some (joinParameters x y)
       | Some x, None => Some x
       | None, y => y
       end |}.

(** [parseNeonFile(await readConfigFile(filePath, disposables))]: the
    document a file holds, [None] when reading it rejects. [parseNeonFile]
    is not among the sources. *)
Variable document : string → option PHPStanConfig.
(** [path.dirname] and [path.join] of Node. *)
Variable dirname : string → string.
Variable join : string → string → string.

(** The loop of lines 107-116. [for ... of] iterates the array that
    [entrypointFile.includes] denotes when the loop starts, the root's. *)
Fixpoint mergeIncludes (configFile : string) (includes : list string)
    (entrypointFile : PHPStanConfig) : option PHPStanConfig :=
  match includes with
  | [] => Some entrypointFile
  | include :: includes' =>
      let filePath := join (dirname configFile) include in
      included ← document filePath;
      mergeIncludes configFile includes' (deepObjectJoin entrypointFile included)
  end.

(** [getPHPStanConfig], lines 99-119. *)
Definition getPHPStanConfig (configFile : string) : option PHPStanConfig :=
  entrypointFile ← document configFile;
  match includes entrypointFile with
  | Some incs => mergeIncludes configFile incs entrypointFile
  | None => Some entrypointFile
  end.

(** [file.parameters?.ignoreErrors ?? []] *)
Definition rulesOf (file : PHPStanConfig) : list (PHPStanIgnoreError RegExp) :=
  default [] (parameters file ≫= ignoreErrors).

Definition settingsOf (file : PHPStanConfig) : gmap string string :=
  default ∅ (settings <$> parameters file).

(** [getErrorsToIgnore], lines 121-130; [checkConfig.configFile] is falsy
    when it is missing or empty. *)
Definition getErrorsToIgnore (configFile : option string)
    : option (list (PHPStanIgnoreError RegExp)) :=
  match configFile with
  | Some (String _ _ as file) => rulesOf <$> getPHPStanConfig file
  | Some EmptyString | None => Some []
  end.

(** The resolution the spec words describe (4.2, "recursively parses and
    deep-merges"): an included file is itself resolved, includes and all,
    before it is merged. Paths are resolved against the root file's
    directory, as the spec says. [fuel] bounds the nesting depth. *)
Fixpoint resolveTransitively (fuel : nat) (rootFile filePath : string)
    : option PHPStanConfig :=
  match fuel with
  | O => None
  | S fuel' =>
      file ← document filePath;
      foldl (λ acc include,
               a ← acc;
               sub ← resolveTransitively fuel' rootFile (join (dirname rootFile) include);
               Some (deepObjectJoin a sub))
            (Some file) (default [] (includes file))
  end.

(** The documents a resolution reads, in merge order: the root, then the
    files its own [includes] name. *)
Definition mergedFiles (configFile : string) : list string :=
  match document configFile with
  | Some root => configFile :: (join (dirname configFile) <$> default [] (includes root))
  | None => [configFile]
  end.

(** The value a scalar key ends with when documents are merged in order:
    that of the last document that sets it. *)
Definition lastSetting (key : string) (docs : list PHPStanConfig) : option string :=
  foldl (λ acc doc, match settingsOf doc !! key with Some v => Some v | None => acc end)
        None docs.

End Resolve.
End Config.

(** ** [CachedFileReader], part_001 lines 24-65 *)

Module Reader.

(** What the reader acts on: the content of its file ([None]: unreadable),
    the number of [fsPromises.readFile] calls made, and the number of change
    listeners [fs.watchFile] holds for the path. *)
Record World : Type := {
  content : option string;
  fetches : nat;
  listeners : nat
}.

(** The fields of the class; [_watcher] holds whether a [StatWatcher] is
    referenced. *)
Record CachedFileReader : Type := {
  _cachedValue : option string;
  _watching : bool;
  _watcher : bool
}.

(** A newly constructed reader. *)
Definition new : CachedFileReader :=
  {| _cachedValue := None; _watching := false; _watcher := false |}.

(** [_initWatcher], lines 31-46. No statement assigns [_watching]. *)
Definition _initWatcher (r : CachedFileReader) (w : World) : CachedFileReader * World :=
  if _watching r then (r, w)
  else ({| _cachedValue := _cachedValue r; _watching := _watching r; _watcher := true |},
        {| content := content w; fetches := fetches w; listeners := S (listeners w) |}).

(** How the synchronous part of [read] ends: with the cached value, or
    suspended on [fsPromises.readFile]. *)
Inductive Started : Type :=
| Cached (value : option string)
| Fetching.

(** [read], lines 49-54, up to the [await]. Line 49 tests the truthiness
    of [_cachedValue]. *)
Definition readStart (r : CachedFileReader) (w : World) : Started * CachedFileReader * World :=
  if Js.truthy (_cachedValue r) then (Cached (_cachedValue r), r, w)
  else
    let '(r1, w1) := _initWatcher r w in
    (Fetching, r1,
     {| content := content w1; fetches := S (fetches w1); listeners := listeners w1 |}).

(** [read], lines 54-56, once [readFile] has delivered [text]: the value
    returned and the reader afterwards. When [readFile] rejects, nothing
    after the [await] runs. *)
Definition readFinish (r : CachedFileReader) (text : string) : string * CachedFileReader :=
  (text, {| _cachedValue := Some text; _watching := _watching r; _watcher := _watcher r |}).

(** A [read] that nothing interleaves with: the value the promise resolves
    to ([None]: it rejects), the reader and the world afterwards. *)
Definition read (r : CachedFileReader) (w : World)
    : option string * CachedFileReader * World :=
  match readStart r w with
  | (Cached value, r1, w1) => (value, r1, w1)
  | (Fetching, r1, w1) =>
      match content w1 with
      | Some text => let '(value, r2) := readFinish r1 text in (Some value, r2, w1)
      | None => (None, r1, w1)
      end
  end.

(** The listener of lines 41-43, called when the watcher fires. *)
Definition onChange (r : CachedFileReader) : CachedFileReader :=
  {| _cachedValue := None; _watching := _watching r; _watcher := _watcher r |}.

(** The file is rewritten on disk. *)
Definition write (text : string) (w : World) : World :=
  {| content := Some text; fetches := fetches w; listeners := listeners w |}.

(** [dispose], lines 59-64. *)
Definition dispose (r : CachedFileReader) (w : World) : CachedFileReader * World :=
  if _watcher r
  then ({| _cachedValue := _cachedValue r; _watching := _watching r; _watcher := false |},
        {| content := content w; fetches := fetches w; listeners := 0 |})
  else (r, w).

End Reader.

(** ** [launchPro], pro.ts lines 18-132 *)

Module Pro.

(** A JavaScript number as [parseInt] returns it. [Num z] is the integer
    [z], which a double holds exactly; [Rounded exact] is the double, or
    the infinity, that the integer [exact] is rounded to where it is too
    large for that. Which double that is, is left open. *)
Inductive number : Type :=
| Num (z : Z)
| Rounded (exact : Z)
| NaN.

(** The number of the integer [z]: exact up to 2^53 in magnitude. *)
Definition ofInteger (z : Z) : number :=
  if bool_decide (Z.abs z ≤ 2 ^ 53)%Z then Num z else Rounded z.

(** Value of the longest prefix of decimal digits, [None] if it is empty. *)
Fixpoint digits (acc : option Z) (s : string) : option Z :=
  match s with
  | String a s' =>
      if Regex.digit a
      then digits (Some (10 * default 0 acc + (Z.of_nat (nat_of_ascii a) - 48))%Z) s'
      else acc
  | EmptyString => acc
  end.

Fixpoint trimStart (s : string) : string :=
  match s with
  | String a s' => if Regex.space a then trimStart s' else s
  | EmptyString => s
  end.

(** [parseInt(s, 10)] *)
Definition parseInt (s : string) : number :=
  let signed :=
    match trimStart s with
    | String "-" s' => Z.opp <$> digits None s'
    | String "+" s' => digits None s'
    | s' => digits None s'
    end in
  match signed with
  | Some z => ofInteger z
  | None => NaN
  end.

(** The argument of [onProgress]. *)
Record Progress : Type := {
  done : number;
  total : number;
  percentage : number
}.

(** The pattern of line 70, [(\d+)\/(\d+)\s+\[.*?\]\s+(\d+)%]. *)
Definition progressPattern : Regex.regex :=
  Regex.Seq (Regex.Group 1 (Regex.Plus (Regex.Atom Regex.digit)))
 (Regex.Seq (Regex.Atom (Regex.lit "/"))
 (Regex.Seq (Regex.Group 2 (Regex.Plus (Regex.Atom Regex.digit)))
 (Regex.Seq (Regex.Plus (Regex.Atom Regex.space))
 (Regex.Seq (Regex.Atom (Regex.lit "["))
 (Regex.Seq (Regex.StarLazy (Regex.Atom Regex.dot))
 (Regex.Seq (Regex.Atom (Regex.lit "]"))
 (Regex.Seq (Regex.Plus (Regex.Atom Regex.space))
 (Regex.Seq (Regex.Group 3 (Regex.Plus (Regex.Atom Regex.digit)))
            (Regex.Atom (Regex.lit "%")))))))))).

(** [[...line.matchAll(/.../g)]] *)
Definition progressMatches (line : string) : list Regex.Captures :=
  Regex.matchAll progressPattern line.

(** Text of a capture group of a match. *)
Definition group (m : Regex.Captures) (i : nat) : string := default "" (m !! i).

(** Lines 78-84: the record built from one match. *)
Definition progressOf (m : Regex.Captures) : Progress :=
  {| done := parseInt (group m 1);
     total := parseInt (group m 2);
     percentage := parseInt (group m 3) |}.

(** The readiness marker of line 87. *)
Definition readinessMarker : string := "Open your web browser at:".

(** [ReturnResult<T, E>] of [lib/result], used through [ReturnResult.success]
    and [ReturnResult.error]. *)
Inductive ReturnResult (T E : Type) : Type :=
| success (value : T)
| error (e : E).
Arguments success {T E} value.
Arguments error {T E} e.

(** A session handle, [new PHPStanProProcess(classConfig, configDirPath)]. *)
Record PHPStanProProcess : Type := { _configDirPath : string }.

(** What is fixed when the promise of line 65 is created: whether the caller
    passed [onProgress], and [path.join(tmpPath, 'phpstan-fixer')]. *)
Record Env : Type := {
  onProgress : bool;
  configDirPath : string
}.

(** The state the handlers of lines 65-131 share. [settled] is the value the
    promise has been resolved with, [None] while it is pending;
    [pendingChecks] counts the [wait(100)] callbacks scheduled and not yet
    run; [constructed] lists the session handles created; [reports] lists
    the arguments [onProgress] was called with and [logged] the lines
    the handlers logged, oldest first. *)
Record Launch : Type := {
  stderr : string;
  settled : option (ReturnResult PHPStanProProcess string);
  pendingChecks : nat;
  constructed : list PHPStanProProcess;
  reports : list Progress;
  logged : list string
}.

Definition initial : Launch :=
  {| stderr := ""; settled := None; pendingChecks := 0; constructed := [];
     reports := []; logged := [] |}.

(** [resolve(v)]: only the first call settles a promise. *)
Definition resolve (v : ReturnResult PHPStanProProcess string) (st : Launch) : Launch :=
  {| stderr := stderr st;
     settled := match settled st with Some old => Some old | None => Some v end;
     pendingChecks := pendingChecks st; constructed := constructed st;
     reports := reports st; logged := logged st |}.

(** What the process and the timers can make happen. *)
Inductive Event : Type :=
| StdoutData (chunk : string)
| StderrData (chunk : string)
| ProcError (message : string)
| ProcExit (code : option Z)
| GraceElapsed (folderExists : bool).

(** The [stdout] handler, lines 67-113. The element read on line 79 exists
    whenever [progressMatch.length] is not zero. *)
Definition onStdout (env : Env) (st : Launch) (chunk : string) : Launch :=
  let line := chunk in
  let progressMatch := progressMatches line in
  let st :=
    {| stderr := stderr st; settled := settled st; pendingChecks := pendingChecks st;
       constructed := constructed st; reports := reports st;
       logged := logged st ++ ["PHPStan Pro: " +:+ line] |} in
  if onProgress env && negb (bool_decide (length progressMatch = 0%nat))
  then
    match progressMatch !! (length progressMatch - 1)%nat with
    | Some m =>
        {| stderr := stderr st; settled := settled st; pendingChecks := pendingChecks st;
           constructed := constructed st; reports := reports st ++ [progressOf m];
           logged := logged st |}
    | None => st
    end
  else if Js.includes readinessMarker line
  then {| stderr := stderr st; settled := settled st;
          pendingChecks := S (pendingChecks st);
          constructed := constructed st; reports := reports st;
          logged := logged st |}
  else st.

(** The callback of lines 90-111, run after the grace period with the answer
    of [pathExists(configDirPath)]. *)
Definition onGraceElapsed (env : Env) (st : Launch) (folderExists : bool) : Launch :=
  match pendingChecks st with
  | O => st
  | S n =>
      let st :=
        {| stderr := stderr st; settled := settled st; pendingChecks := n;
           constructed := constructed st; reports := reports st; logged := logged st |} in
      if folderExists
      then
        let handle := {| _configDirPath := configDirPath env |} in
        resolve (success handle)
          {| stderr := stderr st; settled := settled st; pendingChecks := pendingChecks st;
             constructed := constructed st ++ [handle]; reports := reports st;
             logged := logged st |}
      else resolve (error "Failed to launch PHPStan Pro (tmp folder does not exist)") st
  end.

(** [code ?? '?'] inside the template string of line 127. *)
Definition showCode (code : option Z) : string :=
  match code with
  | Some n => pretty n
  | None => "?"
  end.

(** One event, handled by the listener registered for it. *)
Definition step (env : Env) (st : Launch) (ev : Event) : Launch :=
  match ev with
  | StdoutData chunk => onStdout env st chunk
  | StderrData chunk =>
      {| stderr := stderr st +:+ chunk; settled := settled st;
         pendingChecks := pendingChecks st; constructed := constructed st;
         reports := reports st; logged := logged st |}
  | ProcError message =>
      resolve (error ("Failed to launch PHPStan Pro: " +:+ message +:+ " - " +:+ stderr st)) st
  | ProcExit code =>
      resolve (error ("PHPStan Pro exited with code " +:+ showCode code +:+ ": " +:+ stderr st)) st
  | GraceElapsed folderExists => onGraceElapsed env st folderExists
  end.

Definition run (env : Env) (st : Launch) (events : list Event) : Launch :=
  foldl (step env) st events.

(** [launchPro]: the early return of lines 31-33 and, otherwise, the promise
    of lines 65-131 after the given events. The fields record what the
    handlers of the promise did: the line logged on lines 40-48, before the
    process is spawned and any handler exists, is not among [logged]. *)
Definition launchPro (env : Env) (launchConfigFound : bool) (events : list Event) : Launch :=
  if launchConfigFound then run env initial events
  else resolve (error "Failed to find launch configuration") initial.

End Pro.

(** ** Concrete inputs used by the examples below *)

Module Samples.

Definition diagnostic (message : string) (line : nat) : Diag.t :=
  {| Diag.message := message; Diag.range := ((line, 0%nat), (line, 1%nat));
     Diag.severity := Some 1%nat; Diag.source := Some "PHPStan" |}.

Definition undefinedFoo (line : nat) : Diag.t :=
  diagnostic "Undefined variable $foo" line.

(** [{ message: 'Undefined variable', count: 1 }] *)
Definition countedRule : Rule.t Regex.regex :=
  {| Rule.message := Some (MString "Undefined variable");
     Rule.count := Some 1%Z; Rule.path := None; Rule.paths := None |}.

Definition countedOnce : PHPStanIgnoreError Regex.regex := IgnoreObject countedRule.

(** A resolved configuration in a store: the array [[RObject 1]] refers to
    the rule object above. *)
Definition configStore : gmap Store.loc (Store.Obj (RegExp := Regex.regex)) :=
  {[ 1%positive := Store.ORule countedRule ]}.

(** [{ message: 'Undefined variable', paths: ['src/Legacy'] }] *)
Definition legacyPathsOnly : PHPStanIgnoreError Regex.regex :=
  IgnoreObject {| Rule.message := Some (MString "Undefined variable");
                  Rule.count := None; Rule.path := None;
                  Rule.paths := Some ["src/Legacy"] |}.

(** [{ message: 'Undefined variable', path: 'src/Legacy' }] *)
Definition legacyPath : PHPStanIgnoreError Regex.regex :=
  IgnoreObject {| Rule.message := Some (MString "Undefined variable");
                  Rule.count := None; Rule.path := Some "src/Legacy";
                  Rule.paths := None |}.

(** A pattern entry, [/\d+/]. *)
Definition someDigits : Regex.regex := Regex.Plus (Regex.Atom Regex.digit).

(** Three configuration files: [/project/phpstan.neon] includes [a.neon],
    which includes [b.neon]. *)
Definition projectFile (includes : option (list string)) (rule level : string)
    : Config.PHPStanConfig (RegExp := Regex.regex) :=
  {| Config.includes := includes;
     Config.parameters :=
       Some {| Config.ignoreErrors := Some [IgnoreString rule];
               Config.settings := {[ "level" := level ]} |} |}.

Definition projectDocument (filePath : string)
    : option (Config.PHPStanConfig (RegExp := Regex.regex)) :=
  if String.eqb filePath "/project/phpstan.neon"
  then Some (projectFile (Some ["a.neon"]) "bar" "5")
  else if String.eqb filePath "/project/a.neon"
  then Some (projectFile (Some ["b.neon"]) "foo" "8")
  else if String.eqb filePath "/project/b.neon"
  then Some (projectFile None "baz" "9")
  else None.

(** [path.dirname] and [path.join] as they act on the paths above. *)
Definition projectDirname (filePath : string) : string := "/project".
Definition projectJoin (dir file : string) : string := dir +:+ "/" +:+ file.

(** The launch environment of a caller that passes [onProgress]. *)
Definition withProgress : Pro.Env :=
  {| Pro.onProgress := true; Pro.configDirPath := "/tmp/phpstan-fixer/phpstan-fixer" |}.

Definition readyChunk : string := "Open your web browser at: http://127.0.0.1:11111".

End Samples.

(** ** Readings of a pass used by the further properties *)

Module Pass.
Section Readings.
Context {RegExp : Type} `{!RegExpLike RegExp}.

Local Abbreviation IgnoreError := (PHPStanIgnoreError RegExp).

(** An entry whose match consumes nothing and that cannot throw: a string,
    or an object with a [message] and without [count]; [undefined] and
    invalid entries, which the filter of lines 180-202 drops, count too. *)
Definition unlimited (rule : IgnoreError) : bool :=
  match rule with
  | IgnoreObject o =>
      match Rule.message o, Rule.count o with
      | Some _, None => true
      | _, _ => false
      end
  | IgnoreRegExp _ => false
  | IgnoreString _ | IgnoreUndefined | InvalidNeonValue _ => true
  end.

(** No rule of the array stops the scan of this diagnostic. *)
Definition passes (rules : list IgnoreError) (error : Diag.t) : bool :=
  negb (existsb (Suppression.ruleHits error) rules).

(** Number of diagnostics of a pass that some rule suppresses, summed over
    the positions of the array. *)
Definition suppressedTotal (errors : list Diag.t) (rules : list IgnoreError) : nat :=
  sum_list ((λ i, Suppression.suppressedBy i errors rules) <$> seq 0 (length rules)).

(** [after] is [before] with, at most, a lower count. *)
Definition countLowered (before after : IgnoreError) : Prop :=
  match before, after with
  | IgnoreObject o, IgnoreObject o' =>
      Rule.message o' = Rule.message o ∧ Rule.path o' = Rule.path o
      ∧ Rule.paths o' = Rule.paths o
      ∧ match Rule.count o, Rule.count o' with
        | Some n, Some n' => (n' ≤ n)%Z
        | None, None => True
        | _, _ => False
        end
  | _, _ => after = before
  end.

(** An entry that line 181 ([!error]) or line 187 (['invalid' in error])
    makes the filter drop. *)
Definition dropped (rule : IgnoreError) : bool :=
  match rule with
  | IgnoreUndefined | InvalidNeonValue _ | IgnoreString EmptyString => true
  | _ => false
  end.

End Readings.
End Pass.

(** ** [filterBaselineErrorsForFile] with its configuration lookup

    Lines 170-214 as a whole: line 177 resolves the ignore-set of the
    configured file, the rest filters with it. [None] stands for a rejected
    promise, whether a file could not be read or the scan threw. *)

Module Check.
Section Check.
Context {RegExp : Type} `{!RegExpLike RegExp}.
Variable document : string → option (Config.PHPStanConfig (RegExp := RegExp)).
Variable dirname : string → string.
Variable join : string → string → string.

Definition filterBaselineErrorsForFile (configFile : option string)
    (originalFilePath : string) (errors : list Diag.t) : option (list Diag.t) :=
  ignoreErrors ← Config.getErrorsToIgnore document dirname join configFile;
  Suppression.filterBaselineErrorsForFile ignoreErrors originalFilePath errors.

End Check.
End Check.

(** ** [readConfigFile] and the registry of readers, part_001 lines 67-79 *)

Module Registry.

(** The module-level map [readers], with the world each file lives in. *)
Record State : Type := {
  readers : gmap string Reader.CachedFileReader;
  worlds : gmap string Reader.World
}.

Definition empty : State := {| readers := ∅; worlds := ∅ |}.

(** A file nobody has touched yet: unreadable until written, never fetched,
    not watched. *)
Definition untouched : Reader.World :=
  {| Reader.content := None; Reader.fetches := 0; Reader.listeners := 0 |}.

Definition worldOf (st : State) (filePath : string) : Reader.World :=
  default untouched (worlds st !! filePath).

(** [readConfigFile], with a [read] that nothing interleaves with. The array
    [disposables] holds reader objects; each is written as the path it was
    constructed for. Returns the value the promise resolves to ([None]: it
    rejects), the array and the registry afterwards. *)
Definition readConfigFile (filePath : string) (disposables : list string) (st : State)
    : option string * list string * State :=
  let '(reader, disposables') :=
    match readers st !! filePath with
    | Some reader => (reader, disposables)
    | None => (Reader.new, disposables ++ [filePath])
    end in
  let '(value, reader', world') := Reader.read reader (worldOf st filePath) in
  (value, disposables',
   {| readers := <[filePath := reader']> (readers st);
      worlds := <[filePath := world']> (worlds st) |}).

(** A series of calls that share one [disposables] array. *)
Definition readAll (filePaths : list string) (disposables : list string) (st : State)
    : list string * State :=
  foldl (λ '(ds, st) filePath, let '(_, ds', st') := readConfigFile filePath ds st in (ds', st'))
        (disposables, st) filePaths.

End Registry.

(** ** Histories of one [CachedFileReader] *)

Module ReaderTrace.

(** What can happen to a reader and its file: a [read] run to completion,
    the watcher noticing a change, the file being rewritten, [dispose].
    Reads do not overlap here; [ReaderHistory] has the histories in which
    a [read] is suspended on its [await] while other things happen. *)
Inductive Op : Type :=
| Read
| Fire
| Write (text : string)
| Dispose.

(** The watcher calls the listeners it holds; with none registered nothing
    of the reader runs. *)
Definition step (s : Reader.CachedFileReader * Reader.World) (op : Op)
    : Reader.CachedFileReader * Reader.World :=
  let '(r, w) := s in
  match op with
  | Read => let '(_, r', w') := Reader.read r w in (r', w')
  | Fire =>
      match Reader.listeners w with
      | O => (r, w)
      | S _ => (Reader.onChange r, w)
      end
  | Write text => (r, Reader.write text w)
  | Dispose => Reader.dispose r w
  end.

Definition run (ops : list Op) (s : Reader.CachedFileReader * Reader.World)
    : Reader.CachedFileReader * Reader.World :=
  foldl step s ops.

Definition isDispose (op : Op) : bool :=
  match op with Dispose => true | _ => false end.

(** A newly constructed reader for a file with the given content. *)
Definition start (content : option string) : Reader.CachedFileReader * Reader.World :=
  (Reader.new,
   {| Reader.content := content; Reader.fetches := 0; Reader.listeners := 0 |}).

End ReaderTrace.

(** ** Histories of one [CachedFileReader] with suspended reads *)

Module ReaderHistory.

(** A [read] takes two events: [Start] runs lines 49-54 up to the [await],
    and returns at once when the cache is truthy; [Deliver text] resumes a
    suspended [read] with the text [readFile] found on the disk at some
    moment since that [read] started, and runs lines 55-56; [Reject]
    resumes one whose [readFile] failed. The other events are the watcher
    noticing a change, the file being rewritten and [dispose]. *)
Inductive Op : Type :=
| Start
| Deliver (text : string)
| Reject
| Fire
| Write (text : string)
| Dispose.

(** The reader, its file, the number of reads suspended on [readFile], and
    the values the reads have returned so far, oldest first. *)
Record State : Type := {
  reader : Reader.CachedFileReader;
  world : Reader.World;
  awaited : nat;
  returned : list string
}.

(** With no [read] suspended nothing can be delivered or rejected; with no
    listener registered a change runs nothing of the reader. *)
Definition step (s : State) (op : Op) : State :=
  match op with
  | Start =>
      match Reader.readStart (reader s) (world s) with
      | (Reader.Cached value, r, w) =>
          {| reader := r; world := w; awaited := awaited s;
             returned := returned s ++ option_list value |}
      | (Reader.Fetching, r, w) =>
          {| reader := r; world := w; awaited := S (awaited s); returned := returned s |}
      end
  | Deliver text =>
      match awaited s with
      | O => s
      | S n =>
          let '(value, r) := Reader.readFinish (reader s) text in
          {| reader := r; world := world s; awaited := n;
             returned := returned s ++ [value] |}
      end
  | Reject =>
      match awaited s with
      | O => s
      | S n => {| reader := reader s; world := world s; awaited := n;
                  returned := returned s |}
      end
  | Fire =>
      match Reader.listeners (world s) with
      | O => s
      | S _ => {| reader := Reader.onChange (reader s); world := world s;
                  awaited := awaited s; returned := returned s |}
      end
  | Write text =>
      {| reader := reader s; world := Reader.write text (world s);
         awaited := awaited s; returned := returned s |}
  | Dispose =>
      let '(r, w) := Reader.dispose (reader s) (world s) in
      {| reader := r; world := w; awaited := awaited s; returned := returned s |}
  end.

Definition run (ops : list Op) (s : State) : State := foldl step s ops.

(** A newly constructed reader for a file with the given content. *)
Definition start (content : option string) : State :=
  {| reader := Reader.new;
     world := {| Reader.content := content; Reader.fetches := 0; Reader.listeners := 0 |};
     awaited := 0; returned := [] |}.

Definition isStart (op : Op) : bool :=
  match op with Start => true | _ => false end.

(** Number of reads started in a history. *)
Definition starts (ops : list Op) : nat := length (List.filter isStart ops).

(** A fetch completes with content that is not empty. *)
Definition fills (op : Op) : bool :=
  match op with Deliver (String _ _) => true | _ => false end.

(** Neither a change event nor the completion of a fetch. *)
Definition keepsCache (op : Op) : bool :=
  match op with Fire | Deliver _ => false | _ => true end.

End ReaderHistory.

(** ** Readings of a launch history *)

Module ProTrace.

(** Everything received on [stderr], in order. *)
Definition stderrText (events : list Pro.Event) : string :=
  foldr (λ ev acc, match ev with Pro.StderrData chunk => chunk +:+ acc | _ => acc end)
        "" events.

(** The chunks received on [stdout], in order. *)
Definition stdoutChunks (events : list Pro.Event) : list string :=
  omap (λ ev, match ev with Pro.StdoutData chunk => Some chunk | _ => None end) events.

(** Groups 1, 2 and 3 of a match, each through [parseInt]. *)
Definition parsedGroups (m : Regex.Captures) : Pro.Progress :=
  {| Pro.done := Pro.parseInt (default "" (m !! 1%nat));
     Pro.total := Pro.parseInt (default "" (m !! 2%nat));
     Pro.percentage := Pro.parseInt (default "" (m !! 3%nat)) |}.

(** For each [stdout] chunk in which the progress pattern matches, the
    parsed groups of its last match. *)
Definition lastProgress (events : list Pro.Event) : list Pro.Progress :=
  omap (λ ev, match ev with
              | Pro.StdoutData chunk => parsedGroups <$> last (Pro.progressMatches chunk)
              | _ => None
              end) events.

(** Output of the process only: no exit, no error, no timer. *)
Definition isData (ev : Pro.Event) : bool :=
  match ev with
  | Pro.StdoutData _ | Pro.StderrData _ => true
  | _ => false
  end.

(** Not a [stdout] chunk that holds the readiness marker. *)
Definition noMarker (ev : Pro.Event) : bool :=
  match ev with
  | Pro.StdoutData chunk => negb (Js.includes Pro.readinessMarker chunk)
  | _ => true
  end.

(** A number that is not [NaN] and not negative. *)
Definition counting (n : Pro.number) : Prop :=
  match n with
  | Pro.Num z | Pro.Rounded z => (0 ≤ z)%Z
  | Pro.NaN => False
  end.

Definition countingProgress (p : Pro.Progress) : Prop :=
  counting (Pro.done p) ∧ counting (Pro.total p) ∧ counting (Pro.percentage p).

End ProTrace.

(** ** What a pattern can match

    The matches of a pattern without regard to the order in which the
    backtracking matcher tries them: [Matches r s c s' c'] when [r] can
    consume a prefix of [s], leaving [s'], and turn the captures [c] into
    [c']. *)

Module RegexSem.

Inductive Matches : Regex.regex → string → Regex.Captures → string → Regex.Captures → Prop :=
| MatchAtom p a s c :
    p a = true → Matches (Regex.Atom p) (String a s) c s c
| MatchSeq r1 r2 s c s1 c1 s2 c2 :
    Matches r1 s c s1 c1 → Matches r2 s1 c1 s2 c2 → Matches (Regex.Seq r1 r2) s c s2 c2
| MatchStarStop r s c :
    Matches (Regex.Star r) s c s c
| MatchStarStep r s c s1 c1 s2 c2 :
    Matches r s c s1 c1 → Matches (Regex.Star r) s1 c1 s2 c2 →
    Matches (Regex.Star r) s c s2 c2
| MatchLazyStop r s c :
    Matches (Regex.StarLazy r) s c s c
| MatchLazyStep r s c s1 c1 s2 c2 :
    Matches r s c s1 c1 → Matches (Regex.StarLazy r) s1 c1 s2 c2 →
    Matches (Regex.StarLazy r) s c s2 c2
| MatchGroup n r s c s' c' :
    Matches r s c s' c' →
    Matches (Regex.Group n r) s c s' (<[n := Regex.consumed s s']> c').

(** A pattern without capture groups. *)
Fixpoint groupFree (r : Regex.regex) : bool :=
  match r with
  | Regex.Atom _ => true
  | Regex.Seq r1 r2 => groupFree r1 && groupFree r2
  | Regex.Star r' | Regex.StarLazy r' => groupFree r'
  | Regex.Group _ _ => false
  end.

(** A non-empty run of decimal digits. *)
Fixpoint allDigits (s : string) : bool :=
  match s with
  | EmptyString => true
  | String a s' => Regex.digit a && allDigits s'
  end.

Definition digitRun (s : string) : Prop :=
  s ≠ "" ∧ allDigits s = true.

End RegexSem.

(** ** Further concrete inputs *)

Module Scenarios.


End Scenarios.

(** * Verification *)

(** ** The suppression engine on values *)

Section SuppressionFacts.
Context {RegExp : Type} `{!RegExpLike RegExp}.
Import Suppression.

Local Abbreviation IgnoreError := (PHPStanIgnoreError RegExp).

Lemma isIgnored_firstHit (error : Diag.t) (rules : list IgnoreError) verdict rules' :
  isIgnored error rules = Some (verdict, rules') →
  match firstHit error rules with
  | Some i =>
      verdict = true ∧
      ∃ rule, rules !! i = Some rule ∧ ruleHits error rule = true ∧
              rules' = <[i := afterHit rule]> rules
  | None => verdict = false ∧ rules' = rules
  end.
Proof.
  revert verdict rules'.
  induction rules as [|rule later IH]; intros verdict rules' Hrun; simpl in *.
  { by simplify_eq. }
  assert (Hcont : ∀ v l, ('(v0, l0) ← isIgnored error later; Some (v0, rule :: l0)) = Some (v, l) →
            match S <$> firstHit error later with
            | Some i => v = true ∧ ∃ r, (rule :: later) !! i = Some r ∧ ruleHits error r = true ∧
                        l = <[i := afterHit r]> (rule :: later)
            | None => v = false ∧ l = rule :: later
            end).
  { intros v l Hb. destruct (isIgnored error later) as [[v0 l0]|] eqn:E; simplify_eq/=.
    specialize (IH _ _ eq_refl). destruct (firstHit error later) as [i|]; simpl.
    - destruct IH as (-> & r & ? & ? & ->). eauto 10.
    - by destruct IH as [-> ->]. }
  destruct rule as [o|s|re| |src]; simpl in *.
  - destruct (countIsZero o) eqn:Ez; simpl; [by apply Hcont|].
    destruct (Rule.message o) as [matcher|] eqn:Em; [|done].
    destruct (matchesStringOrRegexp _ matcher) eqn:Ematch; [|by apply Hcont].
    simplify_eq. split; [done|]. eexists; split_and!; [done| |done].
    simpl. by rewrite Ez, Em, Ematch.
  - destruct (Js.includes s _) eqn:Ematch; [|by apply Hcont].
    simplify_eq. split; [done|]. eexists; split_and!; [done| |done]. done.
  - destruct (regexp_test re _) eqn:Ematch; [|by apply Hcont].
    simplify_eq. split; [done|]. eexists; split_and!; [done| |done]. done.
  - by apply Hcont.
  - done.
Qed.


Lemma isIgnored_length (error : Diag.t) (rules : list IgnoreError) verdict rules' :
  isIgnored error rules = Some (verdict, rules') → length rules' = length rules.
Proof.
  intros Hrun. apply isIgnored_firstHit in Hrun.
  destruct (firstHit error rules) as [i|].
  - destruct Hrun as (_ & rule & _ & _ & ->). by rewrite length_insert.
  - by destruct Hrun as [_ ->].
Qed.

Lemma firstHit_Some_lt (error : Diag.t) (rules : list IgnoreError) i :
  firstHit error rules = Some i → (i < length rules)%nat.
Proof.
  revert i. induction rules as [|rule later IH]; intros i; simpl; [done|].
  destruct (ruleHits error rule); intros Hi; simplify_eq/=; [lia|].
  destruct (firstHit error later) as [j|]; simplify_eq/=.
  specialize (IH _ eq_refl). lia.
Qed.


Lemma firstHit_lookup (error : Diag.t) (rules : list IgnoreError) i :
  firstHit error rules = Some i →
  ∃ rule, rules !! i = Some rule ∧ ruleHits error rule = true.
Proof.
  revert i. induction rules as [|rule later IH]; intros i; simpl; [done|].
  destruct (ruleHits error rule) eqn:E; intros Hi; simplify_eq/=; [eauto|].
  destruct (firstHit error later) as [j|]; simplify_eq/=. eauto.
Qed.


Lemma firstHit_None (error : Diag.t) (rules : list IgnoreError) j rule :
  firstHit error rules = None → rules !! j = Some rule → ruleHits error rule = false.
Proof.
  revert j. induction rules as [|r later IH]; intros j; simpl; [done|].
  destruct (ruleHits error r) eqn:E; intros Hi Hj; simplify_eq/=.
  destruct (firstHit error later) as [k|]; simplify_eq/=.
  destruct j as [|j]; simplify_eq/=; eauto.
Qed.

(** The loop only appends to [finalErrors], and what it appends is a
    subsequence of the diagnostics it was given. *)
Lemma filterLoop_sublist (errors : list Diag.t) (rules : list IgnoreError) acc out rules' :
  filterLoop errors rules acc = Some (out, rules') →
  ∃ kept, out = acc ++ kept ∧ kept `sublist_of` errors.
Proof.
  revert rules acc. induction errors as [|error errors IH]; intros rules acc Hrun; simpl in *.
  { simplify_eq. exists []. by rewrite app_nil_r. }
  destruct (isIgnored error rules) as [[ignored rules1]|]; simplify_eq/=.
  apply IH in Hrun as (kept & -> & Hsub). destruct ignored.
  - exists kept. split; [done|]. by apply sublist_cons.
  - exists (error :: kept). split; [by rewrite <- app_assoc|]. by apply sublist_skip.
Qed.


Lemma insertAt_cons {A : Type} (n : nat) (x y : A) (l : list A) :
  insertAt (S n) x (y :: l) = y :: insertAt n x l.
Proof. done. Qed.

Lemma isIgnored_skip_zero (error : Diag.t) (n : nat) (o : Rule.t RegExp) (rules : list IgnoreError) :
  countIsZero o = true →
  isIgnored error (insertAt n (IgnoreObject o) rules) =
  (λ '(verdict, rules'), (verdict, insertAt n (IgnoreObject o) rules')) <$> isIgnored error rules.
Proof.
  intros Hzero. revert rules. induction n as [|n IH]; intros rules.
  { unfold insertAt. simpl. rewrite drop_0, Hzero.
    destruct (isIgnored error rules) as [[v l]|]; simpl; [|done]. by rewrite drop_0. }
  destruct rules as [|rule later].
  { unfold insertAt. simpl. by rewrite Hzero. }
  rewrite insertAt_cons. simpl. rewrite IH.
  assert (Hcont :
    ('(v0, l0) ← ((λ '(v, l), (v, insertAt n (IgnoreObject o) l)) <$> isIgnored error later);
       Some (v0, rule :: l0)) =
    (λ '(v, l), (v, insertAt (S n) (IgnoreObject o) l)) <$>
      ('(v0, l0) ← isIgnored error later; Some (v0, rule :: l0))).
  { by destruct (isIgnored error later) as [[v l]|]. }
  destruct rule as [o'|s|re| |src]; simpl; try done.
  - destruct (countIsZero o'); [done|].
    destruct (Rule.message o') as [matcher|]; [|done].
    by destruct (matchesStringOrRegexp _ matcher).
  - by destruct (Js.includes s _).
  - by destruct (regexp_test re _).
Qed.

Lemma filterLoop_skip_zero (errors : list Diag.t) (n : nat) (o : Rule.t RegExp)
    (rules : list IgnoreError) acc :
  countIsZero o = true →
  filterLoop errors (insertAt n (IgnoreObject o) rules) acc =
  (λ '(out, rules'), (out, insertAt n (IgnoreObject o) rules')) <$> filterLoop errors rules acc.
Proof.
  intros Hzero. revert rules acc.
  induction errors as [|error errors IH]; intros rules acc; simpl; [done|].
  rewrite isIgnored_skip_zero by done.
  destruct (isIgnored error rules) as [[v l]|]; simpl; [|done]. apply IH.
Qed.

Lemma matchingErrors_app path (l1 l2 : list IgnoreError) :
  matchingErrors path (l1 ++ l2) = matchingErrors path l1 ++ matchingErrors path l2.
Proof. unfold matchingErrors. by rewrite List.filter_app, fmap_app. Qed.

Lemma insertAt_app_length {A : Type} (x : A) (l1 l2 : list A) :
  insertAt (length l1) x (l1 ++ l2) = l1 ++ x :: l2.
Proof. unfold insertAt. by rewrite take_app_length, drop_app_length. Qed.

Lemma suppressedBy_zero (i : nat) (o : Rule.t RegExp) (errors : list Diag.t)
    (rules : list IgnoreError) :
  rules !! i = Some (IgnoreObject o) → countIsZero o = true →
  suppressedBy i errors rules = 0%nat.
Proof.
  intros Hi Hzero. revert rules Hi.
  induction errors as [|error errors IH]; intros rules Hi; simpl; [done|].
  destruct (isIgnored error rules) as [[v rules1]|] eqn:Hrun; [|done].
  apply isIgnored_firstHit in Hrun.
  destruct (firstHit error rules) as [j|] eqn:Hj.
  - destruct Hrun as (_ & rule & Hrule & Hhit & ->).
    assert (j ≠ i).
    { intros ->. rewrite Hi in Hrule. simplify_eq. simpl in Hhit. by rewrite Hzero in Hhit. }
    rewrite decide_False by congruence. simpl. apply IH.
    by rewrite list_lookup_insert_ne.
  - destruct Hrun as [_ ->]. simpl. by apply IH.
Qed.







Lemma isIgnored_returns (error : Diag.t) (rules : list IgnoreError) :
  Forall (λ rule, throws rule = false) rules →
  ∃ verdict rules', isIgnored error rules = Some (verdict, rules') ∧
                    Forall (λ rule, throws rule = false) rules'.
Proof.
  induction 1 as [|rule later Hrule Hlater (v & l & IH & Hl)]; simpl.
  { eauto. }
  rewrite IH. simpl.
  assert (∃ verdict rules', Some (v, rule :: l) = Some (verdict, rules') ∧
            Forall (λ rule, throws rule = false) rules') as Hkeep.
  { do 2 eexists. split; [done|]. by constructor. }
  destruct rule as [o|s|re| |src]; simpl; try done.
  - destruct (countIsZero o) eqn:Ez; [done|].
    simpl in Hrule. rewrite Ez in Hrule. simpl in Hrule.
    destruct (Rule.message o) as [matcher|] eqn:Em; [|done].
    destruct (matchesStringOrRegexp _ matcher); [|done].
    do 2 eexists. split; [done|]. constructor; [|done].
    simpl. unfold consume. destruct (Rule.count o) as [n|] eqn:Ec.
    + case_bool_decide; simpl; by rewrite ?Em, andb_false_r.
    + by rewrite Em, andb_false_r.
  - destruct (Js.includes s _); [|done].
    do 2 eexists. split; [done|]. by constructor.
  - destruct (regexp_test re _); [|done].
    do 2 eexists. split; [done|]. by constructor.
Qed.

Lemma filterLoop_returns (errors : list Diag.t) (rules : list IgnoreError) acc :
  Forall (λ rule, throws rule = false) rules →
  is_Some (filterLoop errors rules acc).
Proof.
  revert rules acc. induction errors as [|error errors IH]; intros rules acc Hok; simpl.
  { eauto. }
  destruct (isIgnored_returns error rules Hok) as (v & l & -> & Hl). simpl. by apply IH.
Qed.

Lemma matchingErrors_scannable path (ignoreErrors : list IgnoreError) :
  Forall (λ rule, scannable rule = true) ignoreErrors →
  Forall (λ rule, throws rule = false) (matchingErrors path ignoreErrors).
Proof.
  induction 1 as [|rule later Hrule Hlater IH]; unfold matchingErrors in *; simpl; [done|].
  destruct (matchesCurrentFile path rule) eqn:Ematch; [|done].
  simpl. constructor; [|done].
  destruct rule as [o|s|re| |src]; simpl in *; try done.
  destruct (Rule.message o); [|done]. by rewrite andb_false_r.
Qed.

Lemma sublist_filter_mono {A : Type} (P : A → Prop) `{!∀ x, Decision (P x)} (l1 l2 : list A) :
  l1 `sublist_of` l2 → filter P l1 `sublist_of` filter P l2.
Proof.
  induction 1 as [|x l1 l2 Hsub IH|x l1 l2 Hsub IH]; [done| |].
  - rewrite !filter_cons. case_decide; [by constructor|done].
  - rewrite filter_cons. case_decide; [by constructor|done].
Qed.

(** A rule scoped by a non-empty [path] (and no [paths]), or by [paths]
    beside a non-empty [path], is left out of [matchingErrors] for a file
    whose path contains none of the substrings it lists. *)
Lemma path_scoped_rule_left_out (o : Rule.t RegExp) (originalFilePath : string) :
  Js.truthy (Rule.path o) = true →
  existsb (λ errorPath, Js.includes errorPath originalFilePath)
    (match Rule.paths o with Some ps => ps | None => option_list (Rule.path o) end) = false →
  matchesCurrentFile originalFilePath (IgnoreObject o) = false.
Proof. intros Hpath Hnone. simpl. by rewrite Hpath. Qed.


(** C3. An object rule whose [count] is 0 never suppresses: no scan stops
    at it whatever the message, a scan passes over it as if it were not in
    the array, a pass attributes no suppression to it, and the filter
    returns what it returns without the rule. *)
Theorem zero_count_rule_is_inert
    (before after : list IgnoreError) (message : option (Matcher RegExp))
    (path : option string) (paths : option (list string))
    (originalFilePath : string) (errors : list Diag.t) :
  let rule := IgnoreObject {| Rule.message := message; Rule.count := Some 0%Z;
                              Rule.path := path; Rule.paths := paths |} in
  (∀ error, ruleHits error rule = false)
  ∧ (∀ error rules,
        isIgnored error (rule :: rules) =
        '(verdict, rules') ← isIgnored error rules; Some (verdict, rule :: rules'))
  ∧ (∀ i rules, rules !! i = Some rule → suppressedBy i errors rules = 0%nat)
  ∧ filterBaselineErrorsForFile (before ++ rule :: after) originalFilePath errors
    = filterBaselineErrorsForFile (before ++ after) originalFilePath errors.
Proof.
  intros rule. split_and!; [done|done| |].
  { intros i rules Hi. by eapply suppressedBy_zero. }
  unfold filterBaselineErrorsForFile. rewrite !matchingErrors_app.
  change (rule :: after) with ([rule] ++ after). rewrite matchingErrors_app.
  destruct (matchesCurrentFile originalFilePath rule) eqn:Ematch.
  - replace (matchingErrors originalFilePath [rule]) with [rule]
      by (unfold matchingErrors; cbn [List.filter]; by rewrite Ematch).
    simpl. rewrite <- insertAt_app_length. unfold rule.
    rewrite filterLoop_skip_zero by done.
    by destruct (filterLoop errors _ []) as [[out rules']|].
  - replace (matchingErrors originalFilePath [rule]) with (@nil IgnoreError)
      by (unfold matchingErrors; cbn [List.filter]; by rewrite Ematch).
    done.
Qed.

(** C4. Whatever [filterBaselineErrorsForFile] returns is a subsequence of
    the diagnostics it was given: nothing is added, no diagnostic occurs
    more often than in the input, and the order is kept. The call returns
    whenever no entry of the ignore-set is a top-level pattern or an object
    without [message]. *)
Theorem filter_returns_subsequence
    (ignoreErrors : list IgnoreError) (originalFilePath : string) (errors : list Diag.t) :
  (∀ finalErrors,
      filterBaselineErrorsForFile ignoreErrors originalFilePath errors = Some finalErrors →
      finalErrors `sublist_of` errors
      ∧ (∀ d, d ∈ finalErrors → d ∈ errors)
      ∧ (∀ (P : Diag.t → Prop) `{!∀ d, Decision (P d)},
            (length (filter P finalErrors) ≤ length (filter P errors))%nat))
  ∧ (Forall (λ rule, scannable rule = true) ignoreErrors →
     is_Some (filterBaselineErrorsForFile ignoreErrors originalFilePath errors)).
Proof.
  split.
  - intros finalErrors Hrun. unfold filterBaselineErrorsForFile in Hrun.
    destruct (filterLoop errors _ []) as [[out rules']|] eqn:Hloop; simplify_eq/=.
    apply filterLoop_sublist in Hloop as (kept & -> & Hsub). simpl.
    split_and!; [done| |].
    + intros d Hd. by eapply elem_of_sublist.
    + intros P HP. by apply sublist_length, sublist_filter_mono.
  - intros Hok. unfold filterBaselineErrorsForFile.
    apply fmap_is_Some, filterLoop_returns. by apply matchingErrors_scannable.
Qed.

End SuppressionFacts.

(** C1 (the code at a failing input). The rule
    [{ message: 'Undefined variable', paths: ['src/Legacy'] }] carries the
    scoping field [paths] only. For the file [app/Models/User.php], which
    contains none of its scoped substrings, line 195 finds [path] falsy,
    keeps the rule, and the rule suppresses the diagnostic. The same scope
    given as [path] leaves the diagnostic in place. *)
Lemma paths_only_rule_suppresses_out_of_scope :
  existsb (λ errorPath, Js.includes errorPath "app/Models/User.php") ["src/Legacy"] = false
  ∧ Suppression.matchesCurrentFile "app/Models/User.php" Samples.legacyPathsOnly = true
  ∧ Suppression.filterBaselineErrorsForFile
      [Samples.legacyPathsOnly] "app/Models/User.php" [Samples.undefinedFoo 3] = Some []
  ∧ Suppression.filterBaselineErrorsForFile
      [Samples.legacyPath] "app/Models/User.php" [Samples.undefinedFoo 3]
    = Some [Samples.undefinedFoo 3].
Proof. split_and!; by vm_compute. Qed.


Example quota_scenario_counts :
  Suppression.suppressedBy 0 [Samples.undefinedFoo 1; Samples.undefinedFoo 2]
    (Suppression.matchingErrors "src/a.php" [Samples.countedOnce]) = 1%nat
  ∧ Suppression.matchesOffered 0 (MString "Undefined variable")
      [Samples.undefinedFoo 1; Samples.undefinedFoo 2]
      (Suppression.matchingErrors "src/a.php" [Samples.countedOnce]) = 2%nat.
Proof. split; by vm_compute. Qed.

(** The matches a rule is offered are those no earlier rule takes: behind
    the string rule ['Undefined'], which stops every scan first, the counted
    rule is offered nothing and suppresses nothing. *)
Example earlier_rule_takes_the_matches :
  let rules := Suppression.matchingErrors "src/a.php"
                 [IgnoreString "Undefined"; Samples.countedOnce] in
  let errors := [Samples.undefinedFoo 1; Samples.undefinedFoo 2] in
  Suppression.matchesOffered 1 (MString "Undefined variable") errors rules = 0%nat
  ∧ Suppression.suppressedBy 1 errors rules = 0%nat
  ∧ Suppression.suppressedBy 0 errors rules = 2%nat
  ∧ Suppression.filterBaselineErrorsForFile
      [IgnoreString "Undefined"; Samples.countedOnce] "src/a.php" errors = Some [].
Proof. split_and!; by vm_compute. Qed.

Lemma filter_returns_subsequence_witness :
  [Samples.undefinedFoo 2] `sublist_of` [Samples.undefinedFoo 1; Samples.undefinedFoo 2].
Proof.
  apply (proj1 (filter_returns_subsequence [Samples.countedOnce] "src/a.php"
                  [Samples.undefinedFoo 1; Samples.undefinedFoo 2])
               [Samples.undefinedFoo 2]).
  vm_compute; reflexivity.
Defined.

(** A top-level pattern entry does make a pass throw once a diagnostic gets
    to it: its copy is [{}], whose [message] is [undefined]. *)
Example toplevel_pattern_throws :
  Suppression.filterBaselineErrorsForFile
    [IgnoreRegExp Samples.someDigits] "src/a.php" [Samples.undefinedFoo 1] = None.
Proof. by vm_compute. Qed.

(** ** The suppression engine on a store *)

Section StoreFacts.
Context {RegExp : Type} `{!RegExpLike RegExp}.

Local Abbreviation heap := (gmap Store.loc (Store.Obj (RegExp := RegExp))).
Local Abbreviation Ref := (Store.Ref (RegExp := RegExp)).

(** A scan writes only to locations its array refers to, and only to bound
    ones. *)
Lemma store_isIgnored_frame (error : Diag.t) (refs : list Ref) (h h1 : heap) verdict :
  Store.isIgnored error refs h = Some (verdict, h1) →
  ∀ l, l ∉ Store.locs refs → h1 !! l = h !! l.
Proof.
  revert h1 verdict. induction refs as [|r later IH]; intros h1 verdict Hrun l Hl; simpl in *.
  { by simplify_eq. }
  destruct r as [l0|s|re|]; simpl in *.
  - unfold Store.locs in Hl. simpl in Hl. apply not_elem_of_cons in Hl as [Hne Hl].
    destruct (h !! l0) as [[o|src]|] eqn:Hl0; [|done|done].
    destruct (Suppression.countIsZero o); [by eapply IH|].
    destruct (Rule.message o) as [matcher|]; [|done].
    destruct (Suppression.matchesStringOrRegexp _ matcher); [|by eapply IH].
    simplify_eq. by rewrite lookup_insert_ne.
  - destruct (Js.includes s _); [by simplify_eq|by eapply IH].
  - destruct (regexp_test re _); [by simplify_eq|by eapply IH].
  - by eapply IH.
Qed.

Lemma store_filterLoop_frame (errors : list Diag.t) (refs : list Ref) (h h1 : heap) acc out :
  Store.filterLoop errors refs h acc = Some (out, h1) →
  ∀ l, l ∉ Store.locs refs → h1 !! l = h !! l.
Proof.
  revert h acc. induction errors as [|error errors IH]; intros h acc Hrun l Hl; simpl in *.
  { by simplify_eq. }
  destruct (Store.isIgnored error refs h) as [[v h2]|] eqn:Hscan; simplify_eq/=.
  rewrite (IH _ _ Hrun l Hl). by eapply store_isIgnored_frame.
Qed.

(** Copying allocates: the objects already in the store stay as they are,
    and the copy lives at a location that was free. *)
Lemma spread_fresh (err err' : Ref) (h h1 : heap) :
  Store.closed h [err] →
  Store.spread err h = (err', h1) →
  (∀ l, is_Some (h !! l) → h1 !! l = h !! l)
  ∧ (∀ l, h1 !! l = None → h !! l = None)
  ∧ Forall (λ l, h !! l = None ∧ is_Some (h1 !! l)) (Store.locs [err'])
  ∧ Store.deref h1 err' = Suppression.spread <$> Store.deref h err.
Proof.
  intros Hclosed Hspread.
  pose proof (is_fresh (dom h)) as Hfresh. rewrite not_elem_of_dom in Hfresh.
  assert (∀ obj, (∀ l, is_Some (h !! l) → <[fresh (dom h) := obj]> h !! l = h !! l)
       ∧ (∀ l, <[fresh (dom h) := obj]> h !! l = None → h !! l = None)
       ∧ Forall (λ l, h !! l = None ∧ is_Some (<[fresh (dom h) := obj]> h !! l))
           (Store.locs [Store.RObject (fresh (dom h)) : Ref])) as Halloc.
  { intros obj. split_and!.
    - intros l [x Hx]. rewrite lookup_insert_ne; [done|]. intros <-. congruence.
    - intros l Hl. destruct (decide (fresh (dom h) = l)) as [<-|Hne].
      + by rewrite lookup_insert_eq in Hl.
      + by rewrite lookup_insert_ne in Hl.
    - repeat constructor; [done|]. by rewrite lookup_insert_eq. }
  destruct err as [l0|s|re|]; simpl in Hspread.
  - destruct (h !! l0) as [obj|] eqn:Hl0.
    + simplify_eq. destruct (Halloc obj) as (? & ? & ?). split_and!; [done..|].
      simpl. rewrite lookup_insert_eq, Hl0. by destruct obj.
    + apply Forall_cons in Hclosed as [[x Hx] _]. congruence.
  - simplify_eq. split_and!; [done|done|constructor|done].
  - simplify_eq. destruct (Halloc (Store.ORule Rule.empty)) as (? & ? & ?).
    split_and!; [done..|]. simpl. by rewrite lookup_insert_eq.
  - simplify_eq. split_and!; [done|done|constructor|done].
Qed.

Lemma closed_cons (h : heap) (r : Ref) (refs : list Ref) :
  Store.closed h (r :: refs) ↔ Store.closed h [r] ∧ Store.closed h refs.
Proof.
  unfold Store.closed, Store.locs. simpl. destruct r; simpl;
    rewrite ?Forall_cons; intuition (auto using Forall_nil).
Qed.

Lemma closed_mono (h h1 : heap) (refs : list Ref) :
  (∀ l, is_Some (h !! l) → h1 !! l = h !! l) →
  Store.closed h refs → Store.closed h1 refs.
Proof.
  intros Hold Hclosed. unfold Store.closed.
  eapply Forall_impl; [exact Hclosed|]. intros l Hl. simpl. by rewrite Hold.
Qed.

Lemma deref_mono (h h1 : heap) (r : Ref) :
  (∀ l, is_Some (h !! l) → h1 !! l = h !! l) →
  Store.closed h [r] → Store.deref h1 r = Store.deref h r.
Proof.
  intros Hold Hclosed. destruct r as [l| | |]; simpl; try done.
  apply Forall_cons in Hclosed as [Hl _]. by rewrite Hold.
Qed.

Lemma locs_cons (r : Ref) (refs : list Ref) :
  Store.locs (r :: refs) = Store.locs [r] ++ Store.locs refs.
Proof. unfold Store.locs. simpl. by destruct r. Qed.

Lemma closed_Forall (h : heap) (refs : list Ref) :
  Store.closed h refs → Forall (λ r, Store.closed h [r]) refs.
Proof.
  induction refs as [|r refs IH]; intros Hc; [constructor|].
  apply closed_cons in Hc as [? ?]. constructor; auto.
Qed.

Lemma Forall2_strengthen_r {A B : Type} (P R : A → B → Prop) (Q : B → Prop) l k :
  Forall2 P l k → Forall Q k → (∀ x y, P x y → Q y → R x y) → Forall2 R l k.
Proof.
  intros HP HQ Himp. induction HP as [|x y l k Hxy HP IH]; [constructor|].
  apply Forall_cons in HQ as [? ?]. constructor; auto.
Qed.

Lemma spreadAll_fresh (errs refs' : list Ref) (h h1 : heap) :
  Store.closed h errs →
  Store.spreadAll errs h = (refs', h1) →
  (∀ l, is_Some (h !! l) → h1 !! l = h !! l)
  ∧ Forall (λ l, h !! l = None ∧ is_Some (h1 !! l)) (Store.locs refs')
  ∧ NoDup (Store.locs refs')
  ∧ Forall2 (λ r' r, Store.deref h1 r' = Suppression.spread <$> Store.deref h r) refs' errs.
Proof.
  revert refs' h h1. induction errs as [|err errs IH]; intros refs' h h1 Hclosed Hrun;
    simpl in *.
  { simplify_eq. split_and!; [done|constructor|constructor|constructor]. }
  destruct (Store.spread err h) as [err' h2] eqn:Hspread.
  destruct (Store.spreadAll errs h2) as [rest h3] eqn:Hrest. simplify_eq.
  apply closed_cons in Hclosed as [Hc1 Hc2].
  apply spread_fresh in Hspread as (Hold1 & Hfree1 & Hnew1 & Hderef1); [|done].
  apply IH in Hrest as (Hold & Hnew & Hdup & Hderef); [|by eapply closed_mono].
  assert (∀ l, is_Some (h !! l) → h1 !! l = h !! l) as Hold'.
  { intros l Hl. rewrite Hold; [by apply Hold1|]. by rewrite Hold1. }
  split_and!; [done| | |].
  - rewrite locs_cons. apply Forall_app. split.
    + eapply Forall_impl; [exact Hnew1|]. intros l [Hl1 Hl2]. split; [done|].
      by rewrite Hold.
    + eapply Forall_impl; [exact Hnew|]. intros l [Hl1 Hl2]. split; [|done].
      by apply Hfree1.
  - rewrite locs_cons. apply NoDup_app. split_and!; [|  |done].
    + destruct err'; unfold Store.locs; simpl; repeat constructor; set_solver.
    + intros l Hl1 Hl2.
      rewrite Forall_forall in Hnew1, Hnew.
      destruct (Hnew1 _ Hl1) as [_ [x Hx]]. destruct (Hnew _ Hl2) as [Hy _]. congruence.
  - constructor.
    + rewrite <- Hderef1. apply deref_mono; [done|].
      unfold Store.closed. eapply Forall_impl; [exact Hnew1|]. by intros l [_ ?].
    + eapply Forall2_strengthen_r; [exact Hderef|by apply closed_Forall|].
      intros r' r -> Hr. simpl. f_equal. by apply deref_mono.
Qed.

Lemma filter_closed (h : heap) path (refs : list Ref) :
  Store.closed h (List.filter (Store.matchesCurrentFile h path) refs).
Proof.
  induction refs as [|r refs IH]; simpl; [constructor|].
  destruct (Store.matchesCurrentFile h path r) eqn:Ematch; [|done].
  apply closed_cons. split; [|done].
  destruct r as [l| | |]; try constructor; [|constructor].
  unfold Store.matchesCurrentFile in Ematch. simpl in *.
  by destruct (h !! l) as [[|]|].
Qed.

(** Objects that are in the store when [filterBaselineErrorsForFile] is
    called are the same when it returns. *)
Lemma store_filter_frame (h h' : heap) (ignoreErrors : list Ref) path errors finalErrors :
  Store.filterBaselineErrorsForFile h ignoreErrors path errors = Some (finalErrors, h') →
  ∀ l, is_Some (h !! l) → h' !! l = h !! l.
Proof.
  unfold Store.filterBaselineErrorsForFile, Store.matchingErrors.
  destruct (Store.spreadAll _ h) as [rules h1] eqn:Hspread. intros Hloop l Hl.
  apply spreadAll_fresh in Hspread as (Hold & Hnew & _ & _); [|apply filter_closed].
  rewrite <- (Hold l Hl). eapply store_filterLoop_frame; [done|].
  intros Hin. rewrite Forall_forall in Hnew. destruct (Hnew _ Hin) as [Hnone _].
  destruct Hl as [x Hx]. congruence.
Qed.


Lemma deref_agree (h h1 : heap) (refs : list Ref) (vals : list (PHPStanIgnoreError RegExp)) :
  (∀ l, l ∈ Store.locs refs → h1 !! l = h !! l) →
  Forall2 (λ r v, Store.deref h r = Some v) refs vals →
  Forall2 (λ r v, Store.deref h1 r = Some v) refs vals.
Proof.
  intros Hagree Hall. induction Hall as [|r v refs vals Hrv Hall IH]; [constructor|].
  rewrite locs_cons in Hagree. constructor.
  - destruct r as [l| | |]; simpl in *; try done.
    rewrite Hagree; [done|]. unfold Store.locs. simpl. set_solver.
  - apply IH. intros l Hl. apply Hagree. set_solver.
Qed.

(** One scan on the store and one scan on the values the store holds agree,
    provided the array does not refer to one object twice. *)
Lemma store_isIgnored_refines (error : Diag.t) (refs : list Ref)
    (vals : list (PHPStanIgnoreError RegExp)) (h : heap) :
  Forall2 (λ r v, Store.deref h r = Some v) refs vals →
  NoDup (Store.locs refs) →
  match Store.isIgnored error refs h with
  | Some (verdict, h1) =>
      ∃ vals1, Suppression.isIgnored error vals = Some (verdict, vals1)
               ∧ Forall2 (λ r v, Store.deref h1 r = Some v) refs vals1
  | None => Suppression.isIgnored error vals = None
  end.
Proof.
  intros Hall. induction Hall as [|r v refs vals Hrv Hall IH]; intros Hdup; simpl.
  { eexists. split; [done|constructor]. }
  rewrite locs_cons in Hdup. apply NoDup_app in Hdup as (_ & Hdisj & Hdup).
  specialize (IH Hdup).
  assert (Hcont :
    match Store.isIgnored error refs h with
    | Some (verdict, h1) =>
        ∃ vals1, ('(v0, l0) ← Suppression.isIgnored error vals; Some (v0, v :: l0))
                   = Some (verdict, vals1)
                 ∧ Forall2 (λ r v, Store.deref h1 r = Some v) (r :: refs) vals1
    | None => ('(v0, l0) ← Suppression.isIgnored error vals; Some (v0, v :: l0)) = None
    end).
  { destruct (Store.isIgnored error refs h) as [[verdict h1]|] eqn:Hscan.
    - destruct IH as (vals1 & -> & Hall1). eexists. split; [done|]. constructor; [|done].
      destruct r as [l| | |]; simpl in *; try done.
      rewrite (store_isIgnored_frame _ _ _ _ _ Hscan); [done|].
      apply Hdisj. unfold Store.locs. simpl. set_solver.
    - by rewrite IH. }
  destruct r as [l|s|re|]; simpl in *.
  - destruct (h !! l) as [[o|src]|] eqn:Hl; simplify_eq/=; [|done].
    destruct (Suppression.countIsZero o); [done|].
    destruct (Rule.message o) as [matcher|]; [|done].
    destruct (Suppression.matchesStringOrRegexp _ matcher); [|done].
    eexists. split; [done|]. constructor.
    + simpl. by rewrite lookup_insert_eq.
    + eapply deref_agree; [|done]. intros l' Hl'. rewrite lookup_insert_ne; [done|].
      intros <-. eapply Hdisj; [|done]. unfold Store.locs. simpl. set_solver.
  - simplify_eq/=. destruct (Js.includes s _); [|done].
    eexists. split; [done|]. by constructor.
  - simplify_eq/=. destruct (regexp_test re _); [|done].
    eexists. split; [done|]. by constructor.
  - by simplify_eq/=.
Qed.

Lemma store_filterLoop_refines (errors : list Diag.t) (refs : list Ref)
    (vals : list (PHPStanIgnoreError RegExp)) (h : heap) acc :
  Forall2 (λ r v, Store.deref h r = Some v) refs vals →
  NoDup (Store.locs refs) →
  fst <$> Store.filterLoop errors refs h acc = fst <$> Suppression.filterLoop errors vals acc.
Proof.
  revert vals h acc. induction errors as [|error errors IH]; intros vals h acc Hall Hdup;
    simpl; [done|].
  pose proof (store_isIgnored_refines error refs vals h Hall Hdup) as Hscan.
  destruct (Store.isIgnored error refs h) as [[verdict h1]|].
  - destruct Hscan as (vals1 & -> & Hall1). simpl. by apply IH.
  - by rewrite Hscan.
Qed.

Lemma filter_deref (h : heap) path (refs : list Ref) (vals : list (PHPStanIgnoreError RegExp)) :
  Forall2 (λ r v, Store.deref h r = Some v) refs vals →
  Forall2 (λ r v, Store.deref h r = Some v)
    (List.filter (Store.matchesCurrentFile h path) refs)
    (List.filter (Suppression.matchesCurrentFile path) vals).
Proof.
  induction 1 as [|r v refs vals Hrv Hall IH]; simpl; [constructor|].
  unfold Store.matchesCurrentFile at 1. rewrite Hrv.
  destruct (Suppression.matchesCurrentFile path v); [by constructor|done].
Qed.

(** The store-level filter returns what the value-level filter returns on
    the values the store holds for the array. *)
Lemma store_filter_refines (h : heap) (ignoreErrors : list Ref)
    (vals : list (PHPStanIgnoreError RegExp)) path errors :
  Forall2 (λ r v, Store.deref h r = Some v) ignoreErrors vals →
  fst <$> Store.filterBaselineErrorsForFile h ignoreErrors path errors
  = Suppression.filterBaselineErrorsForFile vals path errors.
Proof.
  intros Hall. unfold Store.filterBaselineErrorsForFile, Store.matchingErrors.
  destruct (Store.spreadAll _ h) as [rules h1] eqn:Hspread.
  apply spreadAll_fresh in Hspread as (_ & _ & Hdup & Hcopy); [|apply filter_closed].
  unfold Suppression.filterBaselineErrorsForFile, Suppression.matchingErrors.
  apply store_filterLoop_refines; [|done].
  apply Forall2_fmap_r. pose proof (filter_deref h path _ _ Hall) as Hfilter.
  revert Hcopy Hfilter. generalize (List.filter (Store.matchesCurrentFile h path) ignoreErrors).
  generalize (List.filter (Suppression.matchesCurrentFile path) vals).
  intros vs rs Hcopy. revert vs.
  clear Hdup.
  induction Hcopy as [|r' r rules rs Hr Hcopy IH]; intros vs Hfilter;
    inversion Hfilter as [|? v ? vs' Hv Hfilter']; simplify_eq; [constructor|].
  constructor; [|by apply IH]. simpl. by rewrite Hr, Hv.
Qed.


(** C6. A filter pass writes to its own copies only. For a resolved
    configuration whose array holds the values [vals] in the store [h]: when
    [filterBaselineErrorsForFile] returns, every object that was in the store
    is unchanged, so the array still holds [vals], counts included; the pass
    returned what the value-level engine returns on [vals]; and a later pass
    over the same configuration, for any file and diagnostics, returns what
    it would have returned before this one. The body of the function after
    line 177 has no [await], so no other pass runs in between. *)
Theorem filter_pass_mutates_only_its_copies
    (h h' : heap) (ignoreErrors : list Ref) (vals : list (PHPStanIgnoreError RegExp))
    (originalFilePath : string) (errors finalErrors : list Diag.t) :
  Forall2 (λ r v, Store.deref h r = Some v) ignoreErrors vals →
  Store.filterBaselineErrorsForFile h ignoreErrors originalFilePath errors
    = Some (finalErrors, h') →
  (∀ l obj, h !! l = Some obj → h' !! l = Some obj)
  ∧ Forall2 (λ r v, Store.deref h' r = Some v) ignoreErrors vals
  ∧ Suppression.filterBaselineErrorsForFile vals originalFilePath errors = Some finalErrors
  ∧ (∀ path2 errors2,
        fst <$> Store.filterBaselineErrorsForFile h' ignoreErrors path2 errors2
        = fst <$> Store.filterBaselineErrorsForFile h ignoreErrors path2 errors2).
Proof.
  intros Hall Hrun.
  pose proof (store_filter_frame _ _ _ _ _ _ Hrun) as Hframe.
  assert (Forall2 (λ r v, Store.deref h' r = Some v) ignoreErrors vals) as Hall'.
  { eapply deref_agree; [|done]. intros l Hl. apply Hframe.
    clear Hrun Hframe. induction Hall as [|r v refs vs Hrv Hall IH]; [set_solver|].
    rewrite locs_cons in Hl. apply elem_of_app in Hl as [Hl|Hl]; [|by apply IH].
    destruct r as [l0| | |]; unfold Store.locs in Hl; simpl in *;
      [|by apply elem_of_nil in Hl..].
    apply list_elem_of_singleton in Hl as ->. by destruct (h !! l0). }
  split_and!; [|done| |].
  - intros l obj Hl. rewrite Hframe; [done|by eexists].
  - rewrite <- (store_filter_refines h ignoreErrors vals) by done. by rewrite Hrun.
  - intros path2 errors2.
    by rewrite (store_filter_refines h' ignoreErrors vals),
               (store_filter_refines h ignoreErrors vals).
Qed.

End StoreFacts.

(** A pass over [Samples.configStore] that uses up the quota of its copy:
    the rule object at location 1 keeps [count: 1], the copy at location 2
    ends with [count: 0]. *)
Lemma filter_pass_mutates_only_its_copies_witness :
  let h' := <[2%positive := Store.ORule (Rule.decrement Samples.countedRule)]>
              Samples.configStore in
  (∀ l obj, Samples.configStore !! l = Some obj → h' !! l = Some obj)
  ∧ Forall2 (λ r v, Store.deref h' r = Some v) [Store.RObject 1%positive] [Samples.countedOnce]
  ∧ Suppression.filterBaselineErrorsForFile [Samples.countedOnce] "src/a.php"
      [Samples.undefinedFoo 1; Samples.undefinedFoo 2] = Some [Samples.undefinedFoo 2]
  ∧ (∀ path2 errors2,
        fst <$> Store.filterBaselineErrorsForFile h' [Store.RObject 1%positive] path2 errors2
        = fst <$> Store.filterBaselineErrorsForFile Samples.configStore
                    [Store.RObject 1%positive] path2 errors2).
Proof.
  apply (filter_pass_mutates_only_its_copies Samples.configStore _
           [Store.RObject 1%positive] [Samples.countedOnce] "src/a.php"
           [Samples.undefinedFoo 1; Samples.undefinedFoo 2] [Samples.undefinedFoo 2]).
  - repeat constructor.
  - vm_compute. reflexivity.
Defined.

(** ** Configuration resolution *)

Section ConfigFacts.
Context {RegExp : Type}.
Variable document : string → option (Config.PHPStanConfig (RegExp := RegExp)).
Variable dirname : string → string.
Variable join : string → string → string.

Local Abbreviation PHPStanConfig := (Config.PHPStanConfig (RegExp := RegExp)).

Lemma rulesOf_join (a b : PHPStanConfig) :
  Config.rulesOf (Config.deepObjectJoin a b) = Config.rulesOf a ++ Config.rulesOf b.
Proof.
  unfold Config.rulesOf, Config.deepObjectJoin. simpl.
  destruct (Config.parameters a) as [[ia sa]|], (Config.parameters b) as [[ib sb]|]; simpl;
    try destruct ia; try destruct ib; simpl; by rewrite ?app_nil_r.
Qed.

Lemma settingsOf_join (a b : PHPStanConfig) (key : string) :
  Config.settingsOf (Config.deepObjectJoin a b) !! key =
  match Config.settingsOf b !! key with
  | Some v => Some v
  | None => Config.settingsOf a !! key
  end.
Proof.
  unfold Config.settingsOf, Config.deepObjectJoin. simpl.
  destruct (Config.parameters a) as [[ia sa]|], (Config.parameters b) as [[ib sb]|]; simpl.
  - rewrite lookup_union. by destruct (sb !! key), (sa !! key).
  - by destruct (sa !! key).
  - rewrite lookup_empty. by destruct (sb !! key).
  - by rewrite lookup_empty.
Qed.

Lemma mergeIncludes_fold (configFile : string) (incs : list string) (acc result : PHPStanConfig) :
  Config.mergeIncludes document dirname join configFile incs acc = Some result →
  ∃ docs, Forall2 (λ file doc, document file = Some doc)
            (join (dirname configFile) <$> incs) docs
          ∧ result = foldl Config.deepObjectJoin acc docs.
Proof.
  revert acc. induction incs as [|inc incs IH]; intros acc Hrun; simpl in *.
  { simplify_eq. exists []. by split; [constructor|]. }
  destruct (document (join (dirname configFile) inc)) as [doc|] eqn:Hdoc; simplify_eq/=.
  apply IH in Hrun as (docs & Hdocs & ->). exists (doc :: docs). split; [|done].
  by constructor.
Qed.

Lemma rulesOf_fold (acc : PHPStanConfig) (docs : list PHPStanConfig) :
  Config.rulesOf (foldl Config.deepObjectJoin acc docs)
  = Config.rulesOf acc ++ concat (Config.rulesOf <$> docs).
Proof.
  revert acc. induction docs as [|doc docs IH]; intros acc; simpl.
  { by rewrite app_nil_r. }
  by rewrite IH, rulesOf_join, <- app_assoc.
Qed.

Lemma settingsOf_fold (acc : PHPStanConfig) (docs : list PHPStanConfig) (key : string) :
  Config.settingsOf (foldl Config.deepObjectJoin acc docs) !! key
  = foldl (λ found doc, match Config.settingsOf doc !! key with Some v => Some v | None => found end)
      (Config.settingsOf acc !! key) docs.
Proof.
  revert acc. induction docs as [|doc docs IH]; intros acc; simpl; [done|].
  by rewrite IH, settingsOf_join.
Qed.

(** C5, as amended. A resolution that returns has read the root file and
    the files the root's own [includes] name, resolved against the root's
    directory, and no other: the resolved [ignoreErrors] is the concatenation
    of their rules in that order, and a scalar setting has the value of the
    last of these documents that sets it. *)
Theorem resolution_merges_root_and_its_own_includes (configFile : string) (resolved : PHPStanConfig) :
  Config.getPHPStanConfig document dirname join configFile = Some resolved →
  ∃ docs,
    Forall2 (λ file doc, document file = Some doc)
      (Config.mergedFiles document dirname join configFile) docs
    ∧ Config.rulesOf resolved = concat (Config.rulesOf <$> docs)
    ∧ (∀ key, Config.settingsOf resolved !! key = Config.lastSetting key docs)
    ∧ (configFile ≠ "" →
       Config.getErrorsToIgnore document dirname join (Some configFile)
       = Some (concat (Config.rulesOf <$> docs))).
Proof.
  unfold Config.getPHPStanConfig, Config.mergedFiles.
  destruct (document configFile) as [root|] eqn:Hroot; [|done]. simpl. intros Hrun.
  assert (∃ included,
            Forall2 (λ file doc, document file = Some doc)
              (join (dirname configFile) <$> default [] (Config.includes root)) included
            ∧ resolved = foldl Config.deepObjectJoin root included) as (included & Hread & ->).
  { destruct (Config.includes root) as [incs|]; simpl.
    - by apply mergeIncludes_fold.
    - simplify_eq. exists []. by split; [constructor|]. }
  exists (root :: included).
  assert (Config.rulesOf (foldl Config.deepObjectJoin root included)
          = Config.rulesOf root ++ concat (Config.rulesOf <$> included)) as Hrules
    by apply rulesOf_fold.
  split_and!; [by constructor|done| |].
  - intros key. rewrite settingsOf_fold. unfold Config.lastSetting. simpl.
    by destruct (Config.settingsOf root !! key).
  - intros Hne. destruct configFile as [|a file]; [done|]. simpl.
    unfold Config.getPHPStanConfig. rewrite Hroot. simpl.
    destruct (Config.includes root) as [incs|]; simpl in *.
    + rewrite Hrun. simpl. by rewrite Hrules.
    + apply Forall2_nil_inv_l in Hread as ->. simpl. by rewrite app_nil_r.
Qed.

End ConfigFacts.


(** C5, as stated, fails: [/project/phpstan.neon] includes [a.neon], which
    includes [b.neon]. The code resolves [ignoreErrors] to the rules of the
    root and of [a.neon]; the rule of [b.neon], which is reachable through
    [a.neon], is not among them, while the transitive resolution the claim
    describes has it. *)
Lemma nested_include_is_not_followed :
  Config.getErrorsToIgnore Samples.projectDocument Samples.projectDirname
      Samples.projectJoin (Some "/project/phpstan.neon")
    = Some [IgnoreString "bar"; IgnoreString "foo"]
  ∧ Config.rulesOf <$>
      Config.resolveTransitively Samples.projectDocument Samples.projectDirname
        Samples.projectJoin 3 "/project/phpstan.neon" "/project/phpstan.neon"
    = Some [IgnoreString "bar"; IgnoreString "foo"; IgnoreString "baz"]
  ∧ Config.getErrorsToIgnore Samples.projectDocument Samples.projectDirname
      Samples.projectJoin (Some "/project/phpstan.neon")
    ≠ Config.rulesOf <$>
        Config.resolveTransitively Samples.projectDocument Samples.projectDirname
          Samples.projectJoin 3 "/project/phpstan.neon" "/project/phpstan.neon".
Proof. split_and!; by vm_compute. Qed.

Lemma resolution_merges_root_and_its_own_includes_witness :
  ∃ docs,
    Forall2 (λ file doc, Samples.projectDocument file = Some doc)
      (Config.mergedFiles Samples.projectDocument Samples.projectDirname
         Samples.projectJoin "/project/phpstan.neon") docs
    ∧ Config.rulesOf
        (Config.deepObjectJoin (Samples.projectFile (Some ["a.neon"]) "bar" "5")
           (Samples.projectFile (Some ["b.neon"]) "foo" "8"))
      = concat (Config.rulesOf <$> docs)
    ∧ (∀ key,
          Config.settingsOf
            (Config.deepObjectJoin (Samples.projectFile (Some ["a.neon"]) "bar" "5")
               (Samples.projectFile (Some ["b.neon"]) "foo" "8")) !! key
          = Config.lastSetting key docs)
    ∧ ("/project/phpstan.neon" ≠ "" →
       Config.getErrorsToIgnore Samples.projectDocument Samples.projectDirname
         Samples.projectJoin (Some "/project/phpstan.neon")
       = Some (concat (Config.rulesOf <$> docs))).
Proof.
  apply (resolution_merges_root_and_its_own_includes Samples.projectDocument
           Samples.projectDirname Samples.projectJoin "/project/phpstan.neon").
  reflexivity.
Defined.

Example merged_files_of_project :
  Config.mergedFiles Samples.projectDocument Samples.projectDirname Samples.projectJoin
    "/project/phpstan.neon" = ["/project/phpstan.neon"; "/project/a.neon"]
  ∧ Config.settingsOf <$>
      Config.getPHPStanConfig Samples.projectDocument Samples.projectDirname
        Samples.projectJoin "/project/phpstan.neon"
    = Some {[ "level" := "8" ]}.
Proof. split; by vm_compute. Qed.

(** ** [CachedFileReader] *)

Section ReaderInterleaving.
Import Reader ReaderHistory.

Lemma history_cons (op : Op) (ops : list Op) (s : State) :
  run (op :: ops) s = run ops (step s op).
Proof. done. Qed.

Lemma history_app (ops ops' : list Op) (s : State) :
  run (ops ++ ops') s = run ops' (run ops s).
Proof. unfold run. apply foldl_app. Qed.

Lemma starts_cons (op : Op) (ops : list Op) :
  starts (op :: ops) = ((if isStart op then 1 else 0) + starts ops)%nat.
Proof. unfold starts. simpl. by destruct (isStart op). Qed.

(** Before the first [read] nothing of the reader runs. *)
Lemma unread_run (before : list Op) (s : State) :
  Forall (λ op, isStart op = false) before →
  reader s = new → listeners (world s) = 0%nat → awaited s = 0%nat →
  reader (run before s) = new
  ∧ fetches (world (run before s)) = fetches (world s)
  ∧ listeners (world (run before s)) = 0%nat
  ∧ awaited (run before s) = 0%nat
  ∧ returned (run before s) = returned s.
Proof.
  intros Hops. revert s. induction Hops as [|op ops Hop Hops IH]; intros s Hr Hl Ha; [done|].
  rewrite history_cons.
  assert (reader (step s op) = new ∧ fetches (world (step s op)) = fetches (world s)
          ∧ listeners (world (step s op)) = 0%nat ∧ awaited (step s op) = 0%nat
          ∧ returned (step s op) = returned s) as (Hr1 & Hf1 & Hl1 & Ha1 & Hret1).
  { destruct s as [r [onDisk fetched listening] suspended values]. simpl in *. subst.
    by destruct op. }
  destruct (IH (step s op) Hr1 Hl1 Ha1) as (? & ? & ? & ? & ?).
  split_and!; [done| |done|done|]; congruence.
Qed.

(** While the cache holds a text that is not empty, anything but a change
    event or the completion of a fetch leaves it there, and a [read]
    returns it from line 50. *)
Lemma cached_step (s : State) (op : Op) (a : ascii) (text : string) :
  keepsCache op = true → _cachedValue (reader s) = Some (String a text) →
  _cachedValue (reader (step s op)) = Some (String a text)
  ∧ fetches (world (step s op)) = fetches (world s)
  ∧ returned (step s op) = returned s ++ (if isStart op then [String a text] else []).
Proof.
  destruct s as [[cached watching watcher] [onDisk fetched listening] suspended values].
  simpl. intros Hop ->. destruct op as [|delivered| | |written|]; simpl in *;
    rewrite ?app_nil_r; try done.
  - by destruct suspended.
  - unfold dispose. simpl. by destruct watcher.
Qed.

Lemma cached_run (q : list Op) (s : State) (a : ascii) (text : string) :
  Forall (λ op, keepsCache op = true) q →
  _cachedValue (reader s) = Some (String a text) →
  _cachedValue (reader (run q s)) = Some (String a text)
  ∧ fetches (world (run q s)) = fetches (world s)
  ∧ returned (run q s) = returned s ++ replicate (starts q) (String a text).
Proof.
  intros Hq. revert s. induction Hq as [|op q Hop Hq IH]; intros s Hcached.
  { simpl. by rewrite app_nil_r. }
  rewrite history_cons.
  destruct (cached_step s op a text Hop Hcached) as (Hc1 & Hf1 & Hret1).
  destruct (IH (step s op) Hc1) as (Hc2 & Hf2 & Hret2).
  split_and!; [done|congruence|].
  rewrite Hret2, Hret1, <- app_assoc, starts_cons. by destruct (isStart op).
Qed.

(** While the cache is empty every [read] goes to the disk, and only a
    fetch that completes with a text that is not empty fills the cache. *)
Lemma empty_step (s : State) (op : Op) :
  fills op = false → Js.truthy (_cachedValue (reader s)) = false →
  Js.truthy (_cachedValue (reader (step s op))) = false
  ∧ fetches (world (step s op)) = ((if isStart op then 1 else 0) + fetches (world s))%nat.
Proof.
  destruct s as [[cached watching watcher] [onDisk fetched listening] suspended values].
  simpl. intros Hop Hempty. destruct op as [|delivered| | |written|]; simpl in *.
  - unfold readStart, _initWatcher. simpl. rewrite Hempty.
    destruct watching; simpl; split_and!; done || lia.
  - destruct delivered; [|done]. destruct suspended; simpl; split_and!; done || lia.
  - destruct suspended; simpl; split_and!; done || lia.
  - destruct listening; simpl; split_and!; done || lia.
  - split_and!; done || lia.
  - unfold dispose. simpl. destruct watcher; simpl; split_and!; done || lia.
Qed.

Lemma empty_run (q : list Op) (s : State) :
  Forall (λ op, fills op = false) q → Js.truthy (_cachedValue (reader s)) = false →
  Js.truthy (_cachedValue (reader (run q s))) = false
  ∧ fetches (world (run q s)) = (starts q + fetches (world s))%nat.
Proof.
  intros Hq. revert s. induction Hq as [|op q Hop Hq IH]; intros s Hempty; [done|].
  rewrite history_cons.
  destruct (empty_step s op Hop Hempty) as (Hc1 & Hf1).
  destruct (IH (step s op) Hc1) as (Hc2 & Hf2).
  split; [done|]. rewrite Hf2, Hf1, starts_cons. lia.
Qed.

(** What holds of every state a new reader can get into: [_watching] is
    never set, and a reader that has no watcher has no listener. *)
Lemma reachable_step (s : State) (op : Op) :
  _watching (reader s) = false →
  (_watcher (reader s) = false → listeners (world s) = 0%nat) →
  _watching (reader (step s op)) = false
  ∧ (_watcher (reader (step s op)) = false → listeners (world (step s op)) = 0%nat).
Proof.
  destruct s as [[cached watching watcher] [onDisk fetched listening] suspended values].
  simpl. intros -> Hinv. destruct op as [|delivered| | |written|]; simpl.
  - unfold readStart, _initWatcher. simpl. by destruct (Js.truthy cached).
  - by destruct suspended.
  - by destruct suspended.
  - by destruct listening.
  - done.
  - unfold dispose. simpl. by destruct watcher.
Qed.

Lemma reachable_run (ops : list Op) (s : State) :
  _watching (reader s) = false →
  (_watcher (reader s) = false → listeners (world s) = 0%nat) →
  _watching (reader (run ops s)) = false
  ∧ (_watcher (reader (run ops s)) = false → listeners (world (run ops s)) = 0%nat).
Proof.
  revert s. induction ops as [|op ops IH]; intros s Hw Hinv; [done|].
  rewrite history_cons. destruct (reachable_step s op Hw Hinv). by apply IH.
Qed.

(** With a text in the cache, no listener and no [read] suspended, nothing
    changes the cache any more. *)
Lemma settled_step (s : State) (op : Op) (a : ascii) (text : string) :
  _cachedValue (reader s) = Some (String a text) →
  listeners (world s) = 0%nat → awaited s = 0%nat →
  _cachedValue (reader (step s op)) = Some (String a text)
  ∧ listeners (world (step s op)) = 0%nat ∧ awaited (step s op) = 0%nat
  ∧ fetches (world (step s op)) = fetches (world s)
  ∧ returned (step s op) = returned s ++ (if isStart op then [String a text] else []).
Proof.
  destruct s as [[cached watching watcher] [onDisk fetched listening] suspended values].
  simpl. intros -> -> ->. destruct op as [|delivered| | |written|]; simpl;
    rewrite ?app_nil_r; try done.
  unfold dispose. simpl. by destruct watcher.
Qed.

(** C7, as amended, over the histories of one reader in which a [read] can
    be suspended on [readFile] while other things happen.
    - The first [read] of a reader starts a fetch of the file and registers
      a change listener, and returns nothing yet.
    - Once a fetch has completed with a text that is not empty, that text
      is in the cache until the watcher fires or another fetch completes,
      whatever state the fetch completed in (so also when the watcher
      fired while it was in flight): every [read] started meanwhile
      returns it and none reads the disk.
    - When the watcher fires with a listener registered the cache is
      emptied.
    - While the cache is empty, from construction or from a change event
      until a fetch completes with a text that is not empty, every [read]
      started reads the disk, reads that overlap included. *)
Theorem reader_serves_completed_read_until_change :
  (∀ content before,
      Forall (λ op, isStart op = false) before →
      let s := run (before ++ [Start]) (start content) in
      fetches (world s) = 1%nat ∧ listeners (world s) = 1%nat
      ∧ awaited s = 1%nat ∧ returned s = [])
  ∧ (∀ s a text q,
        awaited s ≠ 0%nat → Forall (λ op, keepsCache op = true) q →
        let s' := run q (step s (Deliver (String a text))) in
        _cachedValue (reader s') = Some (String a text)
        ∧ fetches (world s') = fetches (world s)
        ∧ returned s' = returned s ++ String a text :: replicate (starts q) (String a text))
  ∧ (∀ s, listeners (world s) ≠ 0%nat → _cachedValue (reader (step s Fire)) = None)
  ∧ (∀ s q,
        Js.truthy (_cachedValue (reader s)) = false → Forall (λ op, fills op = false) q →
        let s' := run q s in
        Js.truthy (_cachedValue (reader s')) = false
        ∧ fetches (world s') = (starts q + fetches (world s))%nat).
Proof.
  split_and!.
  - intros content before Hbefore s. subst s. rewrite history_app.
    destruct (unread_run before (start content) Hbefore) as (Hr & Hf & Hl & Ha & Hret);
      [done..|].
    destruct (run before (start content)) as [r [onDisk fetched listening] suspended values].
    simpl in *. by subst.
  - intros s a text q Hawaited Hq s'. subst s'.
    destruct (cached_run q (step s (Deliver (String a text))) a text Hq) as (Hc & Hf & Hret).
    { simpl. by destruct (awaited s). }
    rewrite Hc, Hf, Hret. simpl. destruct (awaited s); [done|]. simpl.
    by rewrite <- app_assoc.
  - intros s Hl. simpl. by destruct (listeners (world s)).
  - intros s q Hempty Hq. by apply empty_run.
Qed.

End ReaderInterleaving.

Lemma reader_serves_completed_read_until_change_witness :
  let s := ReaderHistory.run [ReaderHistory.Start; ReaderHistory.Write "level: 9";
                              ReaderHistory.Fire]
             (ReaderHistory.start (Some "level: 5")) in
  let s' := ReaderHistory.run [ReaderHistory.Start; ReaderHistory.Write "level: 7";
                               ReaderHistory.Start]
              (ReaderHistory.step s (ReaderHistory.Deliver "level: 5")) in
  Reader._cachedValue (ReaderHistory.reader s') = Some "level: 5"
  ∧ Reader.fetches (ReaderHistory.world s') = Reader.fetches (ReaderHistory.world s)
  ∧ ReaderHistory.returned s'
    = ReaderHistory.returned s
      ++ "level: 5" :: replicate
                         (ReaderHistory.starts [ReaderHistory.Start;
                                                ReaderHistory.Write "level: 7";
                                                ReaderHistory.Start])
                         "level: 5".
Proof.
  apply (proj1 (proj2 reader_serves_completed_read_until_change)
           (ReaderHistory.run [ReaderHistory.Start; ReaderHistory.Write "level: 9";
                               ReaderHistory.Fire]
              (ReaderHistory.start (Some "level: 5")))
           "l"%char "evel: 5"
           [ReaderHistory.Start; ReaderHistory.Write "level: 7"; ReaderHistory.Start]).
  - vm_compute. discriminate.
  - repeat constructor.
Defined.

(** C7, as stated, fails: a second read that starts while the first is
    still waiting for [readFile] finds [_cachedValue] empty and fetches the
    file again, although no watcher has fired. *)
Lemma overlapping_reads_both_fetch :
  let w0 := {| Reader.content := Some "includes: []"; Reader.fetches := 0;
               Reader.listeners := 0 |} in
  let first := Reader.readStart Reader.new w0 in
  let second := Reader.readStart first.1.2 first.2 in
  first.1.1 = Reader.Fetching ∧ Reader.fetches first.2 = 1%nat
  ∧ second.1.1 = Reader.Fetching ∧ Reader.fetches second.2 = 2%nat
  ∧ Reader.listeners second.2 = 2%nat.
Proof. by vm_compute. Qed.

(** Content that is empty is not served from the cache. The first read
    fetches the file, registers a listener and stores [""] in
    [_cachedValue]; the second read, with no watcher event in between, finds
    [_cachedValue] falsy on line 49, fetches the file again and registers a
    second listener; and if the file has been rewritten meanwhile, the read
    returns the new text although the watcher has not fired. *)
Example empty_file_is_read_again :
  let w0 := {| Reader.content := Some ""; Reader.fetches := 0; Reader.listeners := 0 |} in
  let first := Reader.read Reader.new w0 in
  let second := Reader.read first.1.2 first.2 in
  let rewritten := Reader.read first.1.2 (Reader.write "includes: []" first.2) in
  first.1.1 = Some "" ∧ Reader.fetches first.2 = 1%nat ∧ Reader.listeners first.2 = 1%nat
  ∧ Reader._cachedValue first.1.2 = Some ""
  ∧ second.1.1 = Some "" ∧ Reader.fetches second.2 = 2%nat
  ∧ Reader.listeners second.2 = 2%nat
  ∧ rewritten.1.1 = Some "includes: []".
Proof. by vm_compute. Qed.

(** A fetch in flight when the watcher fires stores what it read: the
    file is rewritten and the watcher empties the cache, then the fetch
    started before completes with the old text, and the next [read] returns
    the old text from the cache without reading the disk. *)
Example late_fetch_refills_the_cache :
  let s := ReaderHistory.run
             [ReaderHistory.Start; ReaderHistory.Write "level: 9"; ReaderHistory.Fire;
              ReaderHistory.Deliver "level: 5"; ReaderHistory.Start]
             (ReaderHistory.start (Some "level: 5")) in
  ReaderHistory.returned s = ["level: 5"; "level: 5"]
  ∧ Reader.fetches (ReaderHistory.world s) = 1%nat
  ∧ Reader.content (ReaderHistory.world s) = Some "level: 9".
Proof. by vm_compute. Qed.

(** ** The progress pattern *)

Lemma string_app_assoc (a b c : string) : (a +:+ b) +:+ c = a +:+ (b +:+ c).
Proof.
  induction a as [|x a IH]; [done|].
  change (String x ((a +:+ b) +:+ c) = String x (a +:+ (b +:+ c))). by rewrite IH.
Qed.

Lemma string_app_empty_r (a : string) : a +:+ "" = a.
Proof.
  induction a as [|x a IH]; [done|].
  change (String x (a +:+ "") = String x a). by rewrite IH.
Qed.

Section PatternFacts.
Import Regex RegexSem.

Lemma repeatGreedy_sound {A : Type} (r : regex)
    (IH : ∀ s c (k : Cont) (a : A), run r s c k = Some a →
            ∃ s' c', Matches r s c s' c' ∧ k s' c' = Some a)
    (fuel : nat) (s : string) (c : Captures) (k : Cont) (a : A) :
  repeatGreedy (run r) fuel s c k = Some a →
  ∃ s' c', Matches (Star r) s c s' c' ∧ k s' c' = Some a.
Proof.
  revert s c. induction fuel as [|fuel IHfuel]; intros s c; simpl.
  { intros Hk. exists s, c. split; [constructor|done]. }
  destruct (run r s c _) as [a'|] eqn:Hstep.
  - intros [= ->]. apply IH in Hstep as (s1 & c1 & Hm & Hrest).
    case_decide; [|done]. apply IHfuel in Hrest as (s2 & c2 & Hstar & Hk).
    exists s2, c2. split; [|done]. by econstructor.
  - intros Hk. exists s, c. split; [constructor|done].
Qed.

Lemma repeatLazy_sound {A : Type} (r : regex)
    (IH : ∀ s c (k : Cont) (a : A), run r s c k = Some a →
            ∃ s' c', Matches r s c s' c' ∧ k s' c' = Some a)
    (fuel : nat) (s : string) (c : Captures) (k : Cont) (a : A) :
  repeatLazy (run r) fuel s c k = Some a →
  ∃ s' c', Matches (StarLazy r) s c s' c' ∧ k s' c' = Some a.
Proof.
  revert s c. induction fuel as [|fuel IHfuel]; intros s c; simpl.
  { destruct (k s c) eqn:Hk; [|done]. intros [= ->]. exists s, c. split; [constructor|done]. }
  destruct (k s c) eqn:Hk.
  - intros [= ->]. exists s, c. split; [constructor|done].
  - intros Hstep. apply IH in Hstep as (s1 & c1 & Hm & Hrest).
    case_decide; [|done]. apply IHfuel in Hrest as (s2 & c2 & Hstar & Hk2).
    exists s2, c2. split; [|done]. by econstructor.
Qed.

Lemma run_sound {A : Type} (r : regex) :
  ∀ s c (k : Cont) (a : A), run r s c k = Some a →
    ∃ s' c', Matches r s c s' c' ∧ k s' c' = Some a.
Proof.
  induction r as [p|r1 IH1 r2 IH2|r IH|r IH|n r IH]; intros s c k a; simpl.
  - destruct s as [|x s]; [done|]. destruct (p x) eqn:Hp; [|done].
    intros Hk. exists s, c. split; [by constructor|done].
  - intros Hrun. apply IH1 in Hrun as (s1 & c1 & Hm1 & Hrun).
    apply IH2 in Hrun as (s2 & c2 & Hm2 & Hk). exists s2, c2. split; [|done].
    by econstructor.
  - by apply repeatGreedy_sound.
  - by apply repeatLazy_sound.
  - intros Hrun. apply IH in Hrun as (s1 & c1 & Hm & Hk).
    eexists _, _. split; [|done]. by constructor.
Qed.

Lemma matches_suffix (r : regex) s c s' c' :
  Matches r s c s' c' → ∃ pre, s = pre +:+ s'.
Proof.
  induction 1 as [p x s c Hp|r1 r2 s c s1 c1 s2 c2 _ [p1 ->] _ [p2 ->]|r s c
                 |r s c s1 c1 s2 c2 _ [p1 ->] _ [p2 ->]|r s c
                 |r s c s1 c1 s2 c2 _ [p1 ->] _ [p2 ->]|n r s c s' c' _ IH].
  - by exists (String x "").
  - exists (p1 +:+ p2). by rewrite string_app_assoc.
  - by exists "".
  - exists (p1 +:+ p2). by rewrite string_app_assoc.
  - by exists "".
  - exists (p1 +:+ p2). by rewrite string_app_assoc.
  - done.
Qed.

Lemma matches_groupFree (r : regex) s c s' c' :
  Matches r s c s' c' → groupFree r = true → c' = c.
Proof.
  induction 1 as [| ? ? ? ? ? ? ? ? _ IH1 _ IH2| |? ? ? ? ? ? ? _ IH1 _ IH2|
                 |? ? ? ? ? ? ? _ IH1 _ IH2|]; simpl; intros Hfree; try done.
  - apply andb_true_iff in Hfree as [? ?]. rewrite IH2, IH1; done.
  - rewrite IH2, IH1; done.
  - rewrite IH2, IH1; done.
Qed.

Lemma length_app_string (a b : string) :
  String.length (a +:+ b) = (String.length a + String.length b)%nat.
Proof.
  induction a as [|x a IH]; [done|].
  change (S (String.length (a +:+ b)) = S (String.length a + String.length b)).
  by rewrite IH.
Qed.

Lemma substring_prefix (a b : string) :
  String.substring 0 (String.length a) (a +:+ b) = a.
Proof.
  induction a as [|x a IH]; [by destruct b|].
  change (String x (String.substring 0 (String.length a) (a +:+ b)) = String x a).
  by rewrite IH.
Qed.

Lemma consumed_app (pre s' : string) : consumed (pre +:+ s') s' = pre.
Proof.
  unfold consumed. rewrite length_app_string.
  replace (String.length pre + String.length s' - String.length s')%nat
    with (String.length pre) by lia.
  apply substring_prefix.
Qed.

Lemma digits_star s c s' c' :
  Matches (Star (Atom digit)) s c s' c' →
  ∃ pre, s = pre +:+ s' ∧ allDigits pre = true.
Proof.
  remember (Star (Atom digit)) as r eqn:Hr. intros Hm.
  induction Hm as [| | r0 s c|r0 s c s1 c1 s2 c2 Hone _ Hrest IH| | |]; try done.
  - by exists "".
  - injection Hr as ->. destruct (IH eq_refl) as (pre & -> & Hpre).
    inversion Hone as [p x t c0 Hp| | | | | |]; simplify_eq.
    exists (String x pre). split; [done|]. simpl. by rewrite Hp.
Qed.

Lemma digits_plus_group (n : nat) s c s' c' :
  Matches (Group n (Plus (Atom digit))) s c s' c' →
  ∃ run, digitRun run ∧ c' = <[n := run]> c.
Proof.
  intros Hm. inversion Hm as [| | | | | |n0 r0 s0 c0 s0' c0' Hplus]; simplify_eq.
  inversion Hplus as [|r1 r2 s0 c0 s1 c1 s2 c2 Hfirst Hstar| | | | |]; simplify_eq.
  inversion Hfirst as [p x t c0 Hp| | | | | |]; simplify_eq.
  apply matches_groupFree in Hstar as Hcaps; [|done]. subst.
  apply digits_star in Hstar as (pre & -> & Hpre).
  exists (String x pre). split.
  - split; [done|]. simpl. by rewrite Hp.
  - f_equal. change (String x (pre +:+ s')) with (String x pre +:+ s').
    apply consumed_app.
Qed.

Lemma seq_inv (r1 r2 : regex) s c s2 c2 :
  Matches (Seq r1 r2) s c s2 c2 →
  ∃ s1 c1, Matches r1 s c s1 c1 ∧ Matches r2 s1 c1 s2 c2.
Proof. intros Hm. inversion Hm; simplify_eq. eauto. Qed.

Lemma progress_match_groups (s : string) (m : Match) :
  matchAt Pro.progressPattern s = Some m →
  ∃ d1 d2 d3, digitRun d1 ∧ digitRun d2 ∧ digitRun d3
              ∧ Pro.group (captures m) 1 = d1
              ∧ Pro.group (captures m) 2 = d2
              ∧ Pro.group (captures m) 3 = d3.
Proof.
  unfold matchAt. intros Hrun. apply run_sound in Hrun as (s' & c' & Hm & [= <-]).
  inversion Hm as [| | | | | |n0 r0 s0 c0 s0' c0' Hpattern]; simplify_eq. clear Hm.
  unfold Pro.progressPattern in Hpattern.
  apply seq_inv in Hpattern as (s1 & c1 & Hg1 & Hrest).
  apply digits_plus_group in Hg1 as (d1 & Hd1 & ->).
  apply seq_inv in Hrest as (s2 & c2 & Hslash & Hrest).
  apply matches_groupFree in Hslash; [|done]. subst c2.
  apply seq_inv in Hrest as (s3 & c3 & Hg2 & Hrest).
  apply digits_plus_group in Hg2 as (d2 & Hd2 & ->).
  apply seq_inv in Hrest as (s4 & c4 & Hsp & Hrest).
  apply matches_groupFree in Hsp; [|done]. subst c4.
  apply seq_inv in Hrest as (s5 & c5 & Hopen & Hrest).
  apply matches_groupFree in Hopen; [|done]. subst c5.
  apply seq_inv in Hrest as (s6 & c6 & Hbar & Hrest).
  apply matches_groupFree in Hbar; [|done]. subst c6.
  apply seq_inv in Hrest as (s7 & c7 & Hclose & Hrest).
  apply matches_groupFree in Hclose; [|done]. subst c7.
  apply seq_inv in Hrest as (s8 & c8 & Hsp2 & Hrest).
  apply matches_groupFree in Hsp2; [|done]. subst c8.
  apply seq_inv in Hrest as (s9 & c9 & Hg3 & Hpercent).
  apply digits_plus_group in Hg3 as (d3 & Hd3 & ->).
  apply matches_groupFree in Hpercent; [|done]. subst c0'.
  exists d1, d2, d3. unfold Pro.group. simpl.
  split_and!; [done..| | |]; by simplify_map_eq.
Qed.

Lemma search_matchAt (r : regex) (s : string) (m : Match) :
  search r s = Some m → ∃ s0, matchAt r s0 = Some m.
Proof.
  induction s as [|x s IH]; simpl.
  - destruct (matchAt r "") eqn:Hat; [|done]. intros [= ->]. eauto.
  - destruct (matchAt r (String x s)) eqn:Hat; [intros [= ->]; eauto|]. apply IH.
Qed.

Lemma matchAllFrom_matchAt (r : regex) (fuel : nat) (s : string) (c : Captures) :
  c ∈ matchAllFrom r fuel s → ∃ s0 m, matchAt r s0 = Some m ∧ captures m = c.
Proof.
  revert s. induction fuel as [|fuel IH]; intros s; simpl; [by intros ?%elem_of_nil|].
  destruct (search r s) as [m|] eqn:Hsearch; [|by intros ?%elem_of_nil].
  intros [->|Hin]%elem_of_cons.
  - apply search_matchAt in Hsearch as [s0 Hs0]. eauto.
  - destruct (captures m !! 0%nat) as [[|? ?]|], (rest m) as [|? ?];
      try (by apply elem_of_nil in Hin); by eapply IH.
Qed.

Lemma digit_char (x : ascii) :
  digit x = true →
  space x = false ∧ x ≠ "-"%char ∧ x ≠ "+"%char
  ∧ (0 ≤ Z.of_nat (nat_of_ascii x) - 48)%Z.
Proof.
  destruct x as [[] [] [] [] [] [] [] []]; vm_compute; intros Hd; try done;
    split_and!; done.
Qed.

Lemma digits_counting (acc : Z) (t : string) :
  allDigits t = true → (0 ≤ acc)%Z →
  ∃ z, Pro.digits (Some acc) t = Some z ∧ (0 ≤ z)%Z.
Proof.
  revert acc. induction t as [|x t IH]; intros acc; simpl; [eauto|].
  intros [Hx Ht]%andb_true_iff Hacc. rewrite Hx.
  apply IH; [done|]. destruct (digit_char x Hx) as (_ & _ & _ & ?). lia.
Qed.

Lemma parseInt_unsigned (x : ascii) (t : string) :
  space x = false → x ≠ "-"%char → x ≠ "+"%char →
  Pro.parseInt (String x t)
  = match Pro.digits None (String x t) with Some z => Pro.ofInteger z | None => Pro.NaN end.
Proof.
  intros Hspace Hminus Hplus. unfold Pro.parseInt. cbn [Pro.trimStart]. rewrite Hspace.
  clear Hspace.
  destruct x as [[] [] [] [] [] [] [] []];
    first [reflexivity | by destruct Hminus | by destruct Hplus].
Qed.

Lemma parseInt_digitRun (d : string) :
  digitRun d → ProTrace.counting (Pro.parseInt d).
Proof.
  intros [Hne Hall]. destruct d as [|x t]; [done|]. simpl in Hall.
  apply andb_true_iff in Hall as [Hx Ht].
  destruct (digit_char x Hx) as (Hspace & Hminus & Hplus & Hval).
  rewrite parseInt_unsigned by done. cbn [Pro.digits]. rewrite Hx.
  edestruct digits_counting as (z & -> & Hpos); [exact Ht|simpl; lia|].
  unfold Pro.ofInteger. by case_bool_decide.
Qed.

(** The groups of the last match of a chunk. *)
Lemma last_match_groups (chunk : string) (m : Captures) :
  last (Pro.progressMatches chunk) = Some m →
  ∃ d t p, m !! 1%nat = Some d ∧ m !! 2%nat = Some t ∧ m !! 3%nat = Some p
           ∧ digitRun d ∧ digitRun t ∧ digitRun p.
Proof.
  intros Hlast. apply last_Some_elem_of in Hlast.
  apply matchAllFrom_matchAt in Hlast as (s0 & m0 & Hat & <-).
  apply progress_match_groups in Hat as (d & t & p & Hd & Ht & Hp & H1 & H2 & H3).
  unfold Pro.group in *. exists d, t, p.
  destruct (captures m0 !! 1%nat) as [d'|], (captures m0 !! 2%nat) as [t'|],
    (captures m0 !! 3%nat) as [p'|]; simpl in *; subst;
    try (by destruct Hd); try (by destruct Ht); by destruct Hp.
Qed.

End PatternFacts.

(** ** [launchPro] *)

Section ProFacts.
Import Pro.
Variable env : Env.

Lemma resolve_settled (v : ReturnResult PHPStanProProcess string) (st : Launch) :
  is_Some (settled (resolve v st)).
Proof. unfold resolve. simpl. destruct (settled st); eauto. Qed.

Lemma step_keeps_settled (st : Launch) (ev : Event) (v : ReturnResult PHPStanProProcess string) :
  settled st = Some v → settled (step env st ev) = Some v.
Proof.
  destruct st as [err result pending handles reported lines]. simpl. intros ->.
  destruct ev as [chunk|chunk|message|code|folderExists]; simpl;
    unfold onStdout, onGraceElapsed, resolve; simpl; try done.
  - destruct (onProgress env && _); [destruct (_ !! _)|destruct (Js.includes _ _)]; done.
  - destruct pending; [done|]. by destruct folderExists.
Qed.

Lemma run_keeps_settled (st : Launch) (events : list Event)
    (v : ReturnResult PHPStanProProcess string) :
  settled st = Some v → settled (run env st events) = Some v.
Proof.
  revert st. induction events as [|ev events IH]; intros st Hv; simpl; [done|].
  by apply IH, step_keeps_settled.
Qed.

(** While the promise is pending, no scheduled check has run and no handle
    has been constructed: a check that runs settles the promise. *)
Lemma step_pending (st : Launch) (ev : Event) :
  settled (step env st ev) = None →
  settled st = None
  ∧ (pendingChecks st ≤ pendingChecks (step env st ev))%nat
  ∧ constructed (step env st ev) = constructed st.
Proof.
  destruct ev as [chunk|chunk|message|code|folderExists]; simpl.
  - unfold onStdout. simpl.
    destruct (onProgress env && _); [destruct (_ !! _)|destruct (Js.includes _ _)];
      simpl; intros ->; split_and!; done || lia.
  - intros ->. split_and!; done || lia.
  - unfold resolve; simpl. by destruct (settled st).
  - unfold resolve; simpl. by destruct (settled st).
  - unfold onGraceElapsed. destruct (pendingChecks st) as [|n] eqn:Hn.
    + intros ->. split_and!; done || lia.
    + destruct folderExists; unfold resolve; simpl; by destruct (settled st).
Qed.

Lemma run_pending (st : Launch) (events : list Event) :
  settled (run env st events) = None →
  settled st = None
  ∧ (pendingChecks st ≤ pendingChecks (run env st events))%nat
  ∧ constructed (run env st events) = constructed st.
Proof.
  revert st. induction events as [|ev events IH]; intros st Hrun; simpl in *.
  { split_and!; done || lia. }
  apply IH in Hrun as (Hstep & Hle & Hsame).
  apply step_pending in Hstep as (Hst & Hle' & Hsame').
  split_and!; [done|lia|congruence].
Qed.

(** C8, as amended. A stdout chunk that holds the readiness marker and gets
    to the readiness test (no callback, or no progress marker in the chunk)
    schedules a check; if the launch promise is still pending when that
    check finds the directory missing, the promise is resolved with the
    error "Failed to launch PHPStan Pro (tmp folder does not exist)", no
    session handle has been constructed since the chunk arrived, and no
    later event changes the result. *)
Theorem missing_folder_fails_a_pending_launch (st : Launch) (chunk : string) (events later : list Event) :
  onProgress env = false ∨ progressMatches chunk = [] →
  Js.includes readinessMarker chunk = true →
  let reached := run env (step env st (StdoutData chunk)) events in
  settled reached = None →
  let checked := step env reached (GraceElapsed false) in
  settled checked
    = Some (error "Failed to launch PHPStan Pro (tmp folder does not exist)")
  ∧ constructed checked = constructed st
  ∧ settled (run env checked later) = settled checked.
Proof.
  intros Hreaches Hmarker reached Hpending checked.
  apply run_pending in Hpending as Hrun. destruct Hrun as (Hstep & Hle & Hsame).
  apply step_pending in Hstep as Hbefore. destruct Hbefore as (Hst & _ & Hsame').
  assert (pendingChecks (step env st (StdoutData chunk)) = S (pendingChecks st)) as Hsched.
  { simpl. unfold onStdout.
    replace (onProgress env && negb (bool_decide (length (progressMatches chunk) = 0%nat)))
      with false.
    - by rewrite Hmarker.
    - destruct Hreaches as [-> | ->]; [done|]. simpl. by rewrite andb_false_r. }
  assert (settled checked
          = Some (error "Failed to launch PHPStan Pro (tmp folder does not exist)")) as Hfail.
  { subst checked. simpl. unfold onGraceElapsed.
    destruct (pendingChecks reached) as [|n] eqn:Hn; [unfold reached in Hn; lia|].
    unfold resolve. simpl. by rewrite Hpending. }
  split_and!; [done| |rewrite Hfail; by apply run_keeps_settled].
  subst checked. simpl. unfold onGraceElapsed.
  destruct (pendingChecks reached) as [|n] eqn:Hn; [unfold reached in Hn; lia|].
  simpl. unfold reached. congruence.
Qed.


Lemma last_match_lookup (ms : list Regex.Captures) (m : Regex.Captures) :
  last ms = Some m →
  negb (bool_decide (length ms = 0%nat)) = true ∧ ms !! (length ms - 1)%nat = Some m.
Proof.
  intros Hlast. rewrite last_lookup in Hlast. destruct ms as [|m0 ms]; [done|].
  split; [done|]. simpl in *. by rewrite Nat.sub_0_r.
Qed.

(** C9. The progress pattern applied to "12/50 [====>    ] 24%" yields
    [{ done: 12, total: 50, percentage: 24 }]; and for every chunk in which
    the pattern matches, a supplied callback is called exactly once, with
    the last match of the chunk: groups 1, 2 and 3 of that match are runs
    of digits, and the record passed holds what [parseInt] makes of each. *)
Theorem progress_callback_gets_last_match :
  progressOf <$> last (progressMatches "12/50 [====>    ] 24%")
    = Some {| done := Num 12; total := Num 50; percentage := Num 24 |}
  ∧ (∀ st chunk m,
        onProgress env = true →
        last (progressMatches chunk) = Some m →
        ∃ d t p,
          m !! 1%nat = Some d ∧ m !! 2%nat = Some t ∧ m !! 3%nat = Some p
          ∧ RegexSem.digitRun d ∧ RegexSem.digitRun t ∧ RegexSem.digitRun p
          ∧ reports (onStdout env st chunk)
            = reports st ++ [{| done := parseInt d; total := parseInt t;
                                percentage := parseInt p |}]).
Proof.
  split; [by vm_compute|].
  intros st chunk m Hcallback Hlast.
  destruct (last_match_groups chunk m Hlast) as (d & t & p & Hd & Ht & Hp & Hrun).
  exists d, t, p. split_and!; [done..| | | |]; try apply Hrun.
  apply last_match_lookup in Hlast as [Hlen Hm].
  unfold onStdout. rewrite Hcallback, Hlen. simpl. rewrite Hm.
  unfold progressOf, group. by rewrite Hd, Ht, Hp.
Qed.

(** C10. With a callback supplied, a chunk that holds a progress marker
    makes the handler log the line, report the last match and return: the
    promise, the scheduled checks and the constructed handles are as
    before, whether or not the chunk also holds the readiness marker. *)
Theorem progress_chunk_skips_readiness_check (st : Launch) (chunk : string) :
  onProgress env = true → progressMatches chunk ≠ [] →
  ∃ m, last (progressMatches chunk) = Some m
       ∧ onStdout env st chunk
         = {| stderr := stderr st; settled := settled st;
              pendingChecks := pendingChecks st; constructed := constructed st;
              reports := reports st ++ [progressOf m];
              logged := logged st ++ ["PHPStan Pro: " +:+ chunk] |}.
Proof.
  intros Hcallback Hsome.
  destruct (last (progressMatches chunk)) as [m|] eqn:Hlast.
  - exists m. split; [done|]. apply last_match_lookup in Hlast as [Hlen Hm].
    unfold onStdout. rewrite Hcallback, Hlen. simpl. by rewrite Hm.
  - by apply last_None in Hlast.
Qed.

End ProFacts.

(** C8, as stated, fails: the marker arrives, the process exits during the
    grace period, and the check then finds the directory missing. The
    promise was settled by the [exit] listener; the launch reports the exit,
    not the missing folder. *)
Lemma exit_during_grace_period_settles_first :
  let st := Pro.launchPro Samples.withProgress true
              [Pro.StdoutData Samples.readyChunk; Pro.ProcExit (Some 1%Z);
               Pro.GraceElapsed false] in
  Js.includes Pro.readinessMarker Samples.readyChunk = true
  ∧ Pro.settled st = Some (Pro.error "PHPStan Pro exited with code 1: ")
  ∧ Pro.settled st
    ≠ Some (Pro.error "Failed to launch PHPStan Pro (tmp folder does not exist)").
Proof. split_and!; by vm_compute. Qed.

Lemma missing_folder_fails_a_pending_launch_witness :
  let reached := Pro.run Samples.withProgress
                   (Pro.step Samples.withProgress Pro.initial (Pro.StdoutData Samples.readyChunk))
                   [Pro.StderrData "Note: Using configuration file phpstan.neon."] in
  let checked := Pro.step Samples.withProgress reached (Pro.GraceElapsed false) in
  Pro.settled checked
    = Some (Pro.error "Failed to launch PHPStan Pro (tmp folder does not exist)")
  ∧ Pro.constructed checked = Pro.constructed Pro.initial
  ∧ Pro.settled (Pro.run Samples.withProgress checked [Pro.ProcExit (Some 0%Z)])
    = Pro.settled checked.
Proof.
  apply (missing_folder_fails_a_pending_launch Samples.withProgress Pro.initial
           Samples.readyChunk [Pro.StderrData "Note: Using configuration file phpstan.neon."]
           [Pro.ProcExit (Some 0%Z)]).
  - right. vm_compute. reflexivity.
  - vm_compute. reflexivity.
  - vm_compute. reflexivity.
Defined.

(** Two markers in one chunk: the callback gets the second. *)
Lemma progress_callback_gets_last_match_witness :
  Pro.reports (Pro.onStdout Samples.withProgress Pro.initial "1/4 [=>  ] 25% 2/4 [==> ] 50%")
  = Pro.reports Pro.initial
    ++ [{| Pro.done := Pro.Num 2; Pro.total := Pro.Num 4; Pro.percentage := Pro.Num 50 |}].
Proof.
  destruct (proj2 (progress_callback_gets_last_match Samples.withProgress) Pro.initial
              "1/4 [=>  ] 25% 2/4 [==> ] 50%"
              {[ 0%nat := "2/4 [==> ] 50%"; 1%nat := "2"; 2%nat := "4"; 3%nat := "50" ]})
    as (d & t & p & Hd & Ht & Hp & _ & _ & _ & Hreports).
  - reflexivity.
  - vm_compute. reflexivity.
  - vm_compute in Hd, Ht, Hp. injection Hd as <-. injection Ht as <-. injection Hp as <-.
    rewrite Hreports. reflexivity.
Defined.

Lemma progress_chunk_skips_readiness_check_witness :
  Js.includes Pro.readinessMarker ("7/9 [=======>  ] 77% " +:+ Samples.readyChunk) = true
  ∧ ∃ m, last (Pro.progressMatches ("7/9 [=======>  ] 77% " +:+ Samples.readyChunk)) = Some m
       ∧ Pro.onStdout Samples.withProgress Pro.initial
           ("7/9 [=======>  ] 77% " +:+ Samples.readyChunk)
         = {| Pro.stderr := ""; Pro.settled := None; Pro.pendingChecks := 0;
              Pro.constructed := [];
              Pro.reports := [] ++ [Pro.progressOf m];
              Pro.logged := [] ++ ["PHPStan Pro: " +:+ ("7/9 [=======>  ] 77% " +:+ Samples.readyChunk)] |}.
Proof.
  split; [by vm_compute|].
  apply (progress_chunk_skips_readiness_check Samples.withProgress Pro.initial
           ("7/9 [=======>  ] 77% " +:+ Samples.readyChunk)).
  - reflexivity.
  - vm_compute. discriminate.
Defined.

Example last_of_two_markers_is_reported :
  Pro.reports (Pro.onStdout Samples.withProgress Pro.initial "1/4 [=>  ] 25% 2/4 [==> ] 50%")
  = [{| Pro.done := Pro.Num 2; Pro.total := Pro.Num 4; Pro.percentage := Pro.Num 50 |}].
Proof. by vm_compute. Qed.

Example same_chunk_without_callback_schedules_check :
  Pro.pendingChecks
    (Pro.onStdout {| Pro.onProgress := false; Pro.configDirPath := "/tmp/phpstan-fixer" |}
       Pro.initial ("7/9 [=======>  ] 77% " +:+ Samples.readyChunk)) = 1%nat.
Proof. by vm_compute. Qed.

(** * Further properties *)

(** ** More on the suppression engine *)

Section PassFacts.
Context {RegExp : Type} `{!RegExpLike RegExp}.
Import Suppression.

Local Abbreviation IgnoreError := (PHPStanIgnoreError RegExp).

Lemma isIgnored_stateless (error : Diag.t) (rules : list IgnoreError) :
  Forall (λ rule, afterHit rule = rule ∧ throws rule = false) rules →
  isIgnored error rules = Some (existsb (ruleHits error) rules, rules).
Proof.
  intros Hok. destruct (isIgnored_returns error rules) as (v & rules' & Hrun & _).
  { eapply Forall_impl; [exact Hok|]. by intros rule [_ ?]. }
  rewrite Hrun. apply isIgnored_firstHit in Hrun.
  destruct (firstHit error rules) as [i|] eqn:Hi.
  - destruct Hrun as (-> & rule & Hrule & Hhit & ->).
    rewrite Forall_forall in Hok.
    destruct (Hok rule) as [-> _]; [by eapply list_elem_of_lookup_2|].
    rewrite list_insert_id by done. f_equal. f_equal. symmetry.
    apply existsb_exists. exists rule. split; [|done].
    apply list_elem_of_In. by eapply list_elem_of_lookup_2.
  - destruct Hrun as [-> ->]. f_equal. f_equal. symmetry.
    apply not_true_is_false. intros (rule & Hin & Hhit)%existsb_exists.
    apply list_elem_of_In, list_elem_of_lookup in Hin as [j Hj].
    by rewrite (firstHit_None _ _ _ _ Hi Hj) in Hhit.
Qed.

Lemma filterLoop_stateless (errors : list Diag.t) (rules : list IgnoreError) acc :
  Forall (λ rule, afterHit rule = rule ∧ throws rule = false) rules →
  filterLoop errors rules acc = Some (acc ++ List.filter (Pass.passes rules) errors, rules).
Proof.
  intros Hok. revert acc. induction errors as [|error errors IH]; intros acc; simpl.
  { by rewrite app_nil_r. }
  rewrite isIgnored_stateless by done. simpl. rewrite IH. unfold Pass.passes at 2.
  destruct (existsb (ruleHits error) rules); simpl; [done|]. by rewrite <- app_assoc.
Qed.

Lemma matchingErrors_unlimited path (ignoreErrors : list IgnoreError) :
  Forall (λ rule, Pass.unlimited rule = true) ignoreErrors →
  Forall (λ rule, afterHit rule = rule ∧ throws rule = false)
    (matchingErrors path ignoreErrors).
Proof.
  induction 1 as [|rule later Hrule Hlater IH]; unfold matchingErrors in *; simpl; [done|].
  destruct (matchesCurrentFile path rule) eqn:Ematch; [|done].
  simpl. constructor; [|done].
  destruct rule as [o|s|re| |src]; simpl in *; try done.
  unfold consume, countIsZero.
  destruct (Rule.message o), (Rule.count o); done.
Qed.

(** X1 ([isIgnored], [filterBaselineErrorsForFile]). When every entry of
    [ignoreErrors] is a string, or an object with a [message] and without a
    [count] (entries the filter of lines 180-202 drops aside), a pass does
    not throw and carries no state from one diagnostic to the next: it
    returns exactly the diagnostics that no rule in scope for the file
    matches, in their order. *)
Theorem unlimited_rules_filter_by_message
    (ignoreErrors : list IgnoreError) (originalFilePath : string) (errors : list Diag.t) :
  Forall (λ rule, Pass.unlimited rule = true) ignoreErrors →
  filterBaselineErrorsForFile ignoreErrors originalFilePath errors
  = Some (List.filter (Pass.passes (matchingErrors originalFilePath ignoreErrors)) errors).
Proof.
  intros Hok. unfold filterBaselineErrorsForFile.
  by rewrite filterLoop_stateless by by apply matchingErrors_unlimited.
Qed.



Lemma sum_list_indicator_seq (j k m : nat) :
  sum_list ((λ i, if decide (Some j = Some i) then 1 else 0)%nat <$> seq k m)
  = (if decide (k ≤ j < k + m)%nat then 1 else 0)%nat.
Proof.
  revert k. induction m as [|m IH]; intros k; simpl.
  { rewrite decide_False; [done|lia]. }
  rewrite IH. destruct (decide (j = k)) as [->|Hne].
  - rewrite decide_True by done. rewrite decide_False by lia. rewrite decide_True; lia.
  - rewrite (decide_False (P := Some j = Some k)) by congruence.
    repeat case_decide; lia.
Qed.

Lemma sum_list_indicator (n j : nat) :
  (j < n)%nat →
  sum_list ((λ i, if decide (Some j = Some i) then 1 else 0)%nat <$> seq 0 n) = 1%nat.
Proof. intros Hj. rewrite sum_list_indicator_seq. rewrite decide_True; lia. Qed.

Lemma sum_list_plus (f g : nat → nat) (l : list nat) :
  sum_list ((λ i, f i + g i)%nat <$> l) = (sum_list (f <$> l) + sum_list (g <$> l))%nat.
Proof. induction l as [|x l IH]; csimpl; [done|]. rewrite IH. lia. Qed.

Lemma suppressedTotal_nil (rules : list IgnoreError) : Pass.suppressedTotal [] rules = 0%nat.
Proof. unfold Pass.suppressedTotal. induction (seq 0 (length rules)); csimpl; done. Qed.

Lemma suppressedTotal_cons (error : Diag.t) (errors : list Diag.t)
    (rules rules1 : list IgnoreError) verdict :
  isIgnored error rules = Some (verdict, rules1) →
  Pass.suppressedTotal (error :: errors) rules
  = ((if verdict then 1 else 0) + Pass.suppressedTotal errors rules1)%nat.
Proof.
  intros Hscan. unfold Pass.suppressedTotal. simpl suppressedBy. rewrite Hscan.
  rewrite sum_list_plus, (isIgnored_length _ _ _ _ Hscan). f_equal.
  apply isIgnored_firstHit in Hscan.
  destruct (firstHit error rules) as [j|] eqn:Hj.
  - destruct Hscan as (-> & rule & Hrule & _).
    apply sum_list_indicator. by eapply lookup_lt_Some.
  - destruct Hscan as (-> & ->).
    induction (seq 0 (length rules)) as [|i l IH]; csimpl; [done|].
    rewrite ?decide_False by done. exact IH.
Qed.

Lemma suppressedTotal_loop (errors : list Diag.t) (rules : list IgnoreError) acc out rules' :
  filterLoop errors rules acc = Some (out, rules') →
  (length acc + length errors = length out + Pass.suppressedTotal errors rules)%nat.
Proof.
  revert rules acc. induction errors as [|error errors IH]; intros rules acc Hrun.
  { simpl in Hrun. simplify_eq. rewrite suppressedTotal_nil. simpl. lia. }
  simpl in Hrun.
  destruct (isIgnored error rules) as [[v rules1]|] eqn:Hscan; simplify_eq/=.
  rewrite (suppressedTotal_cons _ _ _ _ _ Hscan). apply IH in Hrun.
  destruct v; [lia|]. rewrite length_app in Hrun. simpl in Hrun. lia.
Qed.

(** X3 ([filterBaselineErrorsForFile], lines 204-213). A pass that returns
    accounts for every diagnostic exactly once: the diagnostics given are
    those returned plus, summed over the rules in scope, those each rule
    suppressed. *)
Theorem every_dropped_diagnostic_is_charged_once
    (ignoreErrors : list IgnoreError) (originalFilePath : string)
    (errors finalErrors : list Diag.t) :
  filterBaselineErrorsForFile ignoreErrors originalFilePath errors = Some finalErrors →
  length errors
  = (length finalErrors
     + Pass.suppressedTotal errors (matchingErrors originalFilePath ignoreErrors))%nat.
Proof.
  unfold filterBaselineErrorsForFile. intros Hrun.
  destruct (filterLoop errors _ []) as [[out rules']|] eqn:Hloop; simplify_eq/=.
  by apply suppressedTotal_loop in Hloop.
Qed.

Lemma countLowered_refl (rule : IgnoreError) : Pass.countLowered rule rule.
Proof.
  destruct rule as [o| | | |]; simpl; try done.
  split_and!; [done..|]. by destruct (Rule.count o).
Qed.

Lemma countLowered_trans (a b c : IgnoreError) :
  Pass.countLowered a b → Pass.countLowered b c → Pass.countLowered a c.
Proof.
  destruct a as [oa| | | |], b as [ob| | | |]; simpl; try done;
    destruct c as [oc| | | |]; simpl; try done; try congruence.
  intros (-> & -> & -> & Hab) (-> & -> & -> & Hbc). split_and!; [done..|].
  destruct (Rule.count oa), (Rule.count ob), (Rule.count oc); try done. lia.
Qed.

Lemma countLowered_afterHit (rule : IgnoreError) : Pass.countLowered rule (afterHit rule).
Proof.
  destruct rule as [o| | | |]; simpl; try done. unfold consume.
  destruct (Rule.count o) as [n|] eqn:Hn; [|by rewrite Hn].
  case_bool_decide; simpl; rewrite Hn; simpl; split_and!; done || lia.
Qed.

Lemma isIgnored_countLowered (error : Diag.t) (rules rules' : list IgnoreError) verdict :
  isIgnored error rules = Some (verdict, rules') →
  Forall2 Pass.countLowered rules rules'.
Proof.
  intros Hrun. apply isIgnored_firstHit in Hrun.
  assert (Forall2 Pass.countLowered rules rules) as Hrefl.
  { apply Forall_Forall2_diag, Forall_forall. intros. apply countLowered_refl. }
  destruct (firstHit error rules) as [i|].
  - destruct Hrun as (_ & rule & Hrule & _ & ->).
    rewrite <- (list_insert_id rules i rule) at 1 by done.
    apply Forall2_insert; [done|]. apply countLowered_afterHit.
  - by destruct Hrun as [_ ->].
Qed.

(** X4 ([isIgnored], lines 160-162; loop of lines 204-211). The loop over
    the diagnostics changes nothing of a rule but its [count], and a
    [count] only goes down: the rules stay in place, each keeps its
    [message], [path] and [paths], and entries that are not objects are
    left as they were. *)
Theorem pass_only_lowers_counts (errors : list Diag.t) (rules rules' : list IgnoreError)
    acc out :
  filterLoop errors rules acc = Some (out, rules') →
  Forall2 Pass.countLowered rules rules'.
Proof.
  revert rules acc. induction errors as [|error errors IH]; intros rules acc Hrun; simpl in *.
  { simplify_eq. apply Forall_Forall2_diag, Forall_forall. intros. apply countLowered_refl. }
  destruct (isIgnored error rules) as [[v rules1]|] eqn:Hscan; simplify_eq/=.
  apply IH in Hrun. apply isIgnored_countLowered in Hscan.
  revert Hscan Hrun. generalize rules rules1 rules'. clear.
  intros l1 l2 l3 H12. revert l3. induction H12 as [|a b l1 l2 Hab H12 IH]; intros l3 H23;
    inversion H23; simplify_eq; constructor; eauto using countLowered_trans.
Qed.

(** X5 ([filterBaselineErrorsForFile], lines 180-202). An entry that is
    [undefined], is not a string, object or pattern, or is the empty string
    is left out by the filter: a pass gives the same result, failure
    included, with or without it, wherever it stands in [ignoreErrors]. *)
Theorem dropped_entries_do_not_count
    (before after : list IgnoreError) (entry : IgnoreError)
    (originalFilePath : string) (errors : list Diag.t) :
  Pass.dropped entry = true →
  filterBaselineErrorsForFile (before ++ entry :: after) originalFilePath errors
  = filterBaselineErrorsForFile (before ++ after) originalFilePath errors.
Proof.
  intros Hdrop. unfold filterBaselineErrorsForFile.
  change (entry :: after) with ([entry] ++ after). rewrite !matchingErrors_app.
  replace (matchingErrors originalFilePath [entry]) with (@nil IgnoreError); [done|].
  unfold matchingErrors. destruct entry as [o|[|a s]|re| |src]; done.
Qed.

End PassFacts.

Lemma unlimited_rules_filter_by_message_witness :
  Suppression.filterBaselineErrorsForFile
    [IgnoreString "Undefined variable"; Samples.legacyPathsOnly] "src/a.php"
    [Samples.undefinedFoo 1; Samples.diagnostic "Unused import" 2]
  = Some (List.filter
            (Pass.passes
               (Suppression.matchingErrors "src/a.php"
                  [IgnoreString "Undefined variable"; Samples.legacyPathsOnly]))
            [Samples.undefinedFoo 1; Samples.diagnostic "Unused import" 2]).
Proof.
  apply (unlimited_rules_filter_by_message
           [IgnoreString "Undefined variable"; Samples.legacyPathsOnly] "src/a.php"
           [Samples.undefinedFoo 1; Samples.diagnostic "Unused import" 2]).
  repeat constructor.
Defined.


Lemma every_dropped_diagnostic_is_charged_once_witness :
  length [Samples.undefinedFoo 1; Samples.undefinedFoo 2; Samples.diagnostic "Unused import" 3]
  = (length [Samples.undefinedFoo 2; Samples.diagnostic "Unused import" 3]
     + Pass.suppressedTotal
         [Samples.undefinedFoo 1; Samples.undefinedFoo 2; Samples.diagnostic "Unused import" 3]
         (Suppression.matchingErrors "src/a.php" [Samples.countedOnce; Samples.legacyPath]))%nat.
Proof.
  apply (every_dropped_diagnostic_is_charged_once
           [Samples.countedOnce; Samples.legacyPath] "src/a.php").
  vm_compute. reflexivity.
Defined.

Lemma pass_only_lowers_counts_witness :
  Forall2 Pass.countLowered
    [Samples.countedOnce; IgnoreString "Unused import"]
    [IgnoreObject (Rule.decrement Samples.countedRule); IgnoreString "Unused import"].
Proof.
  apply (pass_only_lowers_counts
           [Samples.undefinedFoo 1; Samples.undefinedFoo 2; Samples.diagnostic "Unused import" 3]
           _ _ [] [Samples.undefinedFoo 2]).
  vm_compute. reflexivity.
Defined.

Lemma dropped_entries_do_not_count_witness :
  Suppression.filterBaselineErrorsForFile
    ([Samples.countedOnce] ++ InvalidNeonValue "42" :: [IgnoreString "Unused import"])
    "src/a.php" [Samples.undefinedFoo 1; Samples.undefinedFoo 2]
  = Suppression.filterBaselineErrorsForFile
      ([Samples.countedOnce] ++ [IgnoreString "Unused import"])
      "src/a.php" [Samples.undefinedFoo 1; Samples.undefinedFoo 2].
Proof.
  apply (dropped_entries_do_not_count [Samples.countedOnce] [IgnoreString "Unused import"]
           (InvalidNeonValue "42")).
  reflexivity.
Defined.

(** ** Copies, resolution and the whole check *)

Section StoreMore.
Context {RegExp : Type} `{!RegExpLike RegExp}.

Local Abbreviation heap := (gmap Store.loc (Store.Obj (RegExp := RegExp))).
Local Abbreviation Ref := (Store.Ref (RegExp := RegExp)).

(** X6 ([filterBaselineErrorsForFile], lines 179-203). The rules a pass
    works on are new objects: their locations are pairwise distinct and
    were free in the store before, every object that was in the store
    keeps its value, and each copy holds the spread of the entry in scope
    at its position. *)
Theorem matchingErrors_allocates_fresh_copies
    (h : heap) (originalFilePath : string) (ignoreErrors : list Ref) :
  let result := Store.matchingErrors h originalFilePath ignoreErrors in
  NoDup (Store.locs result.1)
  ∧ Forall (λ l, h !! l = None ∧ is_Some (result.2 !! l)) (Store.locs result.1)
  ∧ (∀ l, is_Some (h !! l) → result.2 !! l = h !! l)
  ∧ Forall2 (λ copy original,
               Store.deref result.2 copy = Suppression.spread <$> Store.deref h original)
      result.1 (List.filter (Store.matchesCurrentFile h originalFilePath) ignoreErrors).
Proof.
  intros result. subst result. unfold Store.matchingErrors.
  destruct (Store.spreadAll _ h) as [rules h1] eqn:Hspread. simpl.
  apply spreadAll_fresh in Hspread as (Hold & Hnew & Hdup & Hcopy); [|apply filter_closed].
  done.
Qed.

End StoreMore.

Section ConfigMore.
Context {RegExp : Type} `{!RegExpLike RegExp}.
Variable document : string → option (Config.PHPStanConfig (RegExp := RegExp)).
Variable dirname : string → string.
Variable join : string → string → string.

Local Abbreviation PHPStanConfig := (Config.PHPStanConfig (RegExp := RegExp)).

Lemma mergeIncludes_returns (configFile : string) (incs : list string) (acc : PHPStanConfig) :
  is_Some (Config.mergeIncludes document dirname join configFile incs acc)
  ↔ Forall (λ file, is_Some (document file)) (join (dirname configFile) <$> incs).
Proof.
  revert acc. induction incs as [|inc incs IH]; intros acc; simpl.
  { split; [constructor|eauto]. }
  rewrite Forall_cons.
  destruct (document (join (dirname configFile) inc)) as [doc|] eqn:Hdoc; simpl.
  - rewrite IH. split; [by eauto|by intros [_ ?]].
  - split; [by intros []|]. intros [[] _]. done.
Qed.

Lemma getPHPStanConfig_returns (configFile : string) :
  is_Some (Config.getPHPStanConfig document dirname join configFile)
  ↔ Forall (λ file, is_Some (document file))
      (Config.mergedFiles document dirname join configFile).
Proof.
  unfold Config.getPHPStanConfig, Config.mergedFiles.
  destruct (document configFile) as [root|] eqn:Hroot; simpl.
  - rewrite Forall_cons, Hroot.
    destruct (Config.includes root) as [incs|]; simpl.
    + rewrite mergeIncludes_returns. split; [by eauto|by intros [_ ?]].
    + split; [|by eauto]. intros _. split; [by eauto|constructor].
  - split; [by intros []|]. intros [[] _]%Forall_cons. rewrite Hroot in *. done.
Qed.

(** X7 ([getPHPStanConfig], lines 99-119). Resolution returns a
    configuration exactly when the root file and every file the root lists
    under [includes] can be read and parsed; nothing else can make it
    fail. *)
Theorem resolution_returns_iff_files_readable (configFile : string) :
  is_Some (Config.getPHPStanConfig document dirname join configFile)
  ↔ Forall (λ file, is_Some (document file))
      (Config.mergedFiles document dirname join configFile).
Proof. apply getPHPStanConfig_returns. Qed.

Lemma filterLoop_no_rules (errors acc : list Diag.t) :
  Suppression.filterLoop (RegExp := RegExp) errors [] acc = Some (acc ++ errors, []).
Proof.
  revert acc. induction errors as [|error errors IH]; intros acc; simpl.
  { by rewrite app_nil_r. }
  by rewrite IH, <- app_assoc.
Qed.

(** X8 ([getErrorsToIgnore], lines 121-130, composed with
    [filterBaselineErrorsForFile]). Without a configuration file, or with
    the empty string for its path, no file is read and every diagnostic is
    returned; with a path, an unreadable root or include makes the whole
    call fail instead of returning the diagnostics unfiltered. *)
Theorem check_without_config_or_with_unreadable_file
    (originalFilePath : string) (errors : list Diag.t) :
  Check.filterBaselineErrorsForFile document dirname join None originalFilePath errors
    = Some errors
  ∧ Check.filterBaselineErrorsForFile document dirname join (Some "") originalFilePath errors
    = Some errors
  ∧ (∀ a file,
        ¬ Forall (λ f, is_Some (document f))
            (Config.mergedFiles document dirname join (String a file)) →
        Check.filterBaselineErrorsForFile document dirname join (Some (String a file))
          originalFilePath errors = None).
Proof.
  unfold Check.filterBaselineErrorsForFile, Suppression.filterBaselineErrorsForFile.
  split_and!.
  - simpl. unfold Suppression.matchingErrors. simpl. by rewrite filterLoop_no_rules.
  - simpl. unfold Suppression.matchingErrors. simpl. by rewrite filterLoop_no_rules.
  - intros a file Hunreadable. simpl.
    rewrite <- getPHPStanConfig_returns in Hunreadable.
    destruct (Config.getPHPStanConfig document dirname join (String a file)); [|done].
    destruct Hunreadable. eauto.
Qed.

End ConfigMore.

(** A root file that does not exist. *)
Lemma check_without_config_or_with_unreadable_file_witness :
  Check.filterBaselineErrorsForFile Samples.projectDocument Samples.projectDirname
    Samples.projectJoin (Some "/project/missing.neon") "src/a.php" [Samples.undefinedFoo 1]
  = None.
Proof.
  apply (proj2 (proj2 (check_without_config_or_with_unreadable_file
                         Samples.projectDocument Samples.projectDirname Samples.projectJoin
                         "src/a.php" [Samples.undefinedFoo 1]))
           "/"%char "project/missing.neon").
  intros Hreadable. inversion Hreadable as [|file files [doc Hdoc] Hrest].
  discriminate Hdoc.
Defined.

(** ** The reader registry and histories of one reader *)

Lemma readConfigFile_step (filePath : string) (ds : list string) (st : Registry.State) :
  let result := Registry.readConfigFile filePath ds st in
  dom (Registry.readers result.2) = {[ filePath ]} ∪ dom (Registry.readers st)
  ∧ result.1.2 = (if decide (filePath ∈ dom (Registry.readers st)) then ds
                  else ds ++ [filePath]).
Proof.
  unfold Registry.readConfigFile. simpl.
  destruct (Registry.readers st !! filePath) as [reader|] eqn:Hreader.
  - destruct (Reader.read reader _) as [[value reader'] world']. simpl.
    rewrite dom_insert_L. split; [done|]. rewrite decide_True; [done|].
    apply elem_of_dom. eauto.
  - destruct (Reader.read Reader.new _) as [[value reader'] world']. simpl.
    rewrite dom_insert_L. split; [done|]. rewrite decide_False; [done|].
    by apply not_elem_of_dom.
Qed.

Lemma readAll_cons (filePath : string) (filePaths ds : list string) (st : Registry.State) :
  Registry.readAll (filePath :: filePaths) ds st
  = Registry.readAll filePaths (Registry.readConfigFile filePath ds st).1.2
      (Registry.readConfigFile filePath ds st).2.
Proof.
  unfold Registry.readAll. simpl.
  by destruct (Registry.readConfigFile filePath ds st) as [[value ds'] st'].
Qed.

#[local] Set Warnings "-clear-no-such-hyp".

(** X9 ([readConfigFile], lines 67-79). After any sequence of calls the
    registry holds a reader for each path it held before and for each path
    requested, and the disposables passed along gain one entry per path
    that had no reader, each such path once, however often it was
    requested. *)
Theorem registry_keeps_one_reader_per_path
    (filePaths disposables : list string) (st : Registry.State) :
  let result := Registry.readAll filePaths disposables st in
  dom (Registry.readers result.2) = list_to_set filePaths ∪ dom (Registry.readers st)
  ∧ ∃ pushed, result.1 = disposables ++ pushed
              ∧ NoDup pushed
              ∧ ∀ p, p ∈ pushed ↔ p ∈ filePaths ∧ p ∉ dom (Registry.readers st).
Proof.
  revert disposables st. induction filePaths as [|filePath filePaths IH]; intros ds st.
  { simpl. split; [set_solver|]. exists []. rewrite app_nil_r.
    split_and!; [done|constructor|set_solver]. }
  rewrite readAll_cons.
  destruct (readConfigFile_step filePath ds st) as [Hdom Hds].
  destruct (IH (Registry.readConfigFile filePath ds st).1.2
               (Registry.readConfigFile filePath ds st).2) as (Hdom' & pushed & Hpushed & Hnodup & Hin).
  simpl in *. rewrite Hdom in Hdom', Hin. split; [set_solver|].
  rewrite Hpushed, Hds. case_decide as Hknown.
  - exists pushed. split_and!; [done..|]. intros p. rewrite Hin. set_solver.
  - exists (filePath :: pushed). split_and!.
    + by rewrite <- app_assoc.
    + constructor; [|done]. rewrite Hin. set_solver.
    + intros p. rewrite elem_of_cons, Hin. split.
      * intros [->|[? ?]]; set_solver.
      * intros [[->|?]%elem_of_cons ?]; [by left|].
        destruct (decide (p = filePath)) as [->|]; [by left|]. right. set_solver.
Qed.

Section ReaderHistories.
Import Reader ReaderTrace.

Lemma run_cons (op : Op) (ops : list Op) (s : CachedFileReader * World) :
  run (op :: ops) s = run ops (step s op).
Proof. done. Qed.

Lemma step_counts (r : CachedFileReader) (w : World) (op : Op) :
  isDispose op = false → _watching r = false →
  let s := step (r, w) op in
  _watching s.1 = false
  ∧ (listeners s.2 + fetches w = fetches s.2 + listeners w)%nat.
Proof.
  destruct r as [cached watching watcher], w as [onDisk fetched listening]. simpl.
  intros Hop ->. destruct op as [| |text|]; simpl in *; try done.
  - unfold read, readStart, _initWatcher. simpl.
    destruct (Js.truthy cached); simpl; [split; [done|lia]|].
    destruct onDisk; simpl; (split; [done|lia]).
  - destruct listening; simpl; (split; [done|lia]).
  - split; [done|lia].
Qed.

(** X10 ([CachedFileReader._initWatcher], lines 31-46; [read], lines
    48-57). [_watching] is never set, so each read that goes to the disk
    subscribes once more to the watcher: along any history of reads,
    change events and writes of a new reader, the listeners registered are
    as many as the reads that went to the disk. *)
Theorem every_fetch_registers_another_listener (content : option string) (ops : list Op) :
  Forall (λ op, isDispose op = false) ops →
  listeners (run ops (start content)).2 = fetches (run ops (start content)).2.
Proof.
  intros Hops.
  assert (∀ r w, _watching r = false →
            (listeners (run ops (r, w)).2 + fetches w
             = fetches (run ops (r, w)).2 + listeners w)%nat) as Hgen.
  { induction Hops as [|op ops Hop Hops IH]; intros r w Hwatching; [simpl; lia|].
    rewrite run_cons.
    destruct (step_counts r w op Hop Hwatching) as [Hw Hcount].
    destruct (step (r, w) op) as [r1 w1]. simpl in Hw, Hcount.
    specialize (IH r1 w1 Hw). lia. }
  specialize (Hgen new {| content := content; fetches := 0; listeners := 0 |} eq_refl).
  simpl in Hgen. unfold start. lia.
Qed.

End ReaderHistories.

(** Reads of an empty file go to the disk every time. *)
Lemma every_fetch_registers_another_listener_witness :
  Reader.listeners
    (ReaderTrace.run [ReaderTrace.Read; ReaderTrace.Read; ReaderTrace.Fire;
                      ReaderTrace.Write "parameters:"; ReaderTrace.Read]
       (ReaderTrace.start (Some ""))).2
  = Reader.fetches
      (ReaderTrace.run [ReaderTrace.Read; ReaderTrace.Read; ReaderTrace.Fire;
                        ReaderTrace.Write "parameters:"; ReaderTrace.Read]
         (ReaderTrace.start (Some ""))).2.
Proof.
  apply (every_fetch_registers_another_listener (Some "")
           [ReaderTrace.Read; ReaderTrace.Read; ReaderTrace.Fire;
            ReaderTrace.Write "parameters:"; ReaderTrace.Read]).
  repeat constructor.
Defined.

Section DisposedReader.
Import Reader ReaderHistory.

(** X11 ([CachedFileReader.dispose], lines 59-64; [read], lines 48-57).
    [dispose] drops the listeners and keeps [_cachedValue]: a reader
    disposed while it holds a text that is not empty and while no [read]
    is suspended on [readFile] answers every later [read] with that text,
    whatever is written to the file afterwards, and never reads the disk
    or listens again. *)
Theorem disposed_reader_serves_its_cache_forever
    (content : option string) (before after : list Op) (a : ascii) (text : string) :
  let disposed := run (before ++ [Dispose]) (start content) in
  _cachedValue (reader disposed) = Some (String a text) →
  awaited disposed = 0%nat →
  let later := run after disposed in
  _cachedValue (reader later) = Some (String a text)
  ∧ fetches (world later) = fetches (world disposed)
  ∧ listeners (world later) = 0%nat
  ∧ returned later = returned disposed ++ replicate (starts after) (String a text).
Proof.
  intros disposed Hcached Hnone later.
  assert (listeners (world disposed) = 0%nat) as Hdeaf.
  { subst disposed. rewrite history_app.
    destruct (reachable_run before (start content) eq_refl (λ _, eq_refl)) as [_ Hinv].
    destruct (run before (start content))
      as [[cached watching watcher] [onDisk fetched listening] suspended values].
    simpl in *. unfold dispose. simpl. destruct watcher; simpl; [done|]. by apply Hinv. }
  assert (∀ s, _cachedValue (reader s) = Some (String a text) →
            listeners (world s) = 0%nat → awaited s = 0%nat →
            _cachedValue (reader (run after s)) = Some (String a text)
            ∧ fetches (world (run after s)) = fetches (world s)
            ∧ listeners (world (run after s)) = 0%nat
            ∧ returned (run after s) = returned s ++ replicate (starts after) (String a text))
    as Hgen.
  { clear. induction after as [|op after IH]; intros s Hc Hl Ha.
    { simpl. by rewrite app_nil_r. }
    rewrite history_cons.
    destruct (settled_step s op a text Hc Hl Ha) as (Hc1 & Hl1 & Ha1 & Hf1 & Hret1).
    destruct (IH (step s op) Hc1 Hl1 Ha1) as (Hc2 & Hf2 & Hl2 & Hret2).
    split_and!; [done|congruence|done|].
    rewrite Hret2, Hret1, <- app_assoc, starts_cons. by destruct (isStart op). }
  by apply Hgen.
Qed.

End DisposedReader.

Lemma disposed_reader_serves_its_cache_forever_witness :
  let disposed := ReaderHistory.run
                    ([ReaderHistory.Start; ReaderHistory.Deliver "level: 5"]
                     ++ [ReaderHistory.Dispose])
                    (ReaderHistory.start (Some "level: 5")) in
  let later := ReaderHistory.run
                 [ReaderHistory.Write "level: 9"; ReaderHistory.Fire; ReaderHistory.Start]
                 disposed in
  Reader._cachedValue (ReaderHistory.reader later) = Some "level: 5"
  ∧ Reader.fetches (ReaderHistory.world later) = Reader.fetches (ReaderHistory.world disposed)
  ∧ Reader.listeners (ReaderHistory.world later) = 0%nat
  ∧ ReaderHistory.returned later
    = ReaderHistory.returned disposed
      ++ replicate (ReaderHistory.starts [ReaderHistory.Write "level: 9"; ReaderHistory.Fire;
                                          ReaderHistory.Start])
           "level: 5".
Proof.
  apply (disposed_reader_serves_its_cache_forever (Some "level: 5")
           [ReaderHistory.Start; ReaderHistory.Deliver "level: 5"]
           [ReaderHistory.Write "level: 9"; ReaderHistory.Fire; ReaderHistory.Start]
           "l"%char "evel: 5").
  - vm_compute. reflexivity.
  - vm_compute. reflexivity.
Defined.

(** With a [read] suspended at the time of [dispose] the cache does not
    last: two reads overlap, the first completes with what it read, the
    reader is disposed, and the second then stores the text it read. *)
Example fetch_in_flight_at_dispose_overwrites :
  let s := ReaderHistory.run
             [ReaderHistory.Start; ReaderHistory.Write "level: 9"; ReaderHistory.Start;
              ReaderHistory.Deliver "level: 5"; ReaderHistory.Dispose;
              ReaderHistory.Deliver "level: 9"; ReaderHistory.Start]
             (ReaderHistory.start (Some "level: 5")) in
  ReaderHistory.returned s = ["level: 5"; "level: 9"; "level: 9"]
  ∧ Reader.fetches (ReaderHistory.world s) = 2%nat.
Proof. by vm_compute. Qed.

(** ** Histories of a launch *)

Section LaunchHistories.
Import Pro.
Variable env : Env.

Lemma run_app (st : Launch) (a b : list Event) :
  run env st (a ++ b) = run env (run env st a) b.
Proof. unfold run. apply foldl_app. Qed.

(** X12 ([launchPro], lines 65-131). The promise settles once: the result
    a launch has after some events is the result it has after any further
    events. *)
Theorem launch_result_is_final (st : Launch) (first later : list Event)
    (result : ReturnResult PHPStanProProcess string) :
  settled (run env st first) = Some result →
  settled (run env st (first ++ later)) = Some result.
Proof. intros Hsettled. rewrite run_app. by apply run_keeps_settled. Qed.

Lemma data_step (st : Launch) (ev : Event) :
  ProTrace.isData ev = true →
  settled (step env st ev) = settled st
  ∧ constructed (step env st ev) = constructed st
  ∧ stderr (step env st ev)
    = stderr st +:+ ProTrace.stderrText [ev].
Proof.
  destruct ev as [chunk|chunk|message|code|folderExists]; simpl; try done; intros _.
  - unfold onStdout. simpl. rewrite string_app_empty_r.
    destruct (onProgress env && _); [destruct (_ !! _)|destruct (Js.includes _ _)]; done.
  - by rewrite string_app_empty_r.
Qed.

Lemma stderrText_cons (ev : Event) (events : list Event) :
  ProTrace.stderrText (ev :: events) = ProTrace.stderrText [ev] +:+ ProTrace.stderrText events.
Proof.
  unfold ProTrace.stderrText. simpl. destruct ev; simpl; try done.
  by rewrite string_app_empty_r.
Qed.

Lemma data_run (st : Launch) (events : list Event) :
  Forall (λ ev, ProTrace.isData ev = true) events →
  settled (run env st events) = settled st
  ∧ constructed (run env st events) = constructed st
  ∧ stderr (run env st events) = stderr st +:+ ProTrace.stderrText events.
Proof.
  intros Hdata. revert st. induction Hdata as [|ev events Hev Hdata IH]; intros st.
  { simpl. by rewrite string_app_empty_r. }
  change (run env st (ev :: events)) with (run env (step env st ev) events).
  destruct (data_step st ev Hev) as (Hs & Hc & He).
  destruct (IH (step env st ev)) as (Hs' & Hc' & He').
  rewrite Hs', Hc', He', Hs, Hc, He, (stderrText_cons ev events).
  by rewrite string_app_assoc.
Qed.

(** X13 ([launchPro], lines 114-130). When the process exits or fails to
    spawn after nothing but output, the launch fails with a message that
    ends with everything received on [stderr] so far, in order; output on
    [stdout] is no part of it. *)
Theorem failure_message_carries_stderr (events : list Event) :
  Forall (λ ev, ProTrace.isData ev = true) events →
  (∀ code,
      settled (launchPro env true (events ++ [ProcExit code]))
      = Some (error ("PHPStan Pro exited with code " +:+ showCode code +:+ ": "
                     +:+ ProTrace.stderrText events)))
  ∧ (∀ message,
      settled (launchPro env true (events ++ [ProcError message]))
      = Some (error ("Failed to launch PHPStan Pro: " +:+ message +:+ " - "
                     +:+ ProTrace.stderrText events))).
Proof.
  intros Hdata. destruct (data_run initial events Hdata) as (Hs & _ & He).
  simpl in Hs, He. unfold launchPro.
  split; intros x; rewrite run_app; simpl; unfold resolve; simpl; by rewrite Hs, He.
Qed.

(** X14 ([launchPro], lines 86-111). The readiness check of a launch that
    is still pending, when the temporary folder exists, constructs one
    process handle on the configuration directory, resolves the launch
    with it, and no later event changes that result. *)
Theorem present_folder_starts_a_pending_launch
    (st : Launch) (chunk : string) (events later : list Event) :
  onProgress env = false ∨ progressMatches chunk = [] →
  Js.includes readinessMarker chunk = true →
  let reached := run env (step env st (StdoutData chunk)) events in
  settled reached = None →
  let checked := step env reached (GraceElapsed true) in
  let handle := {| _configDirPath := configDirPath env |} in
  settled checked = Some (success handle)
  ∧ constructed checked = constructed st ++ [handle]
  ∧ settled (run env checked later) = Some (success handle).
Proof.
  intros Hreaches Hmarker reached Hpending checked handle.
  apply run_pending in Hpending as Hrun. destruct Hrun as (Hstep & Hle & Hsame).
  apply step_pending in Hstep as Hbefore. destruct Hbefore as (Hst & _ & Hsame').
  assert (pendingChecks (step env st (StdoutData chunk)) = S (pendingChecks st)) as Hsched.
  { simpl. unfold onStdout.
    replace (onProgress env && negb (bool_decide (length (progressMatches chunk) = 0%nat)))
      with false.
    - by rewrite Hmarker.
    - destruct Hreaches as [-> | ->]; [done|]. simpl. by rewrite andb_false_r. }
  assert (settled checked = Some (success handle)
          ∧ constructed checked = constructed st ++ [handle]) as [Hok Hhandles].
  { subst checked. simpl. unfold onGraceElapsed.
    destruct (pendingChecks reached) as [|n] eqn:Hn; [unfold reached in Hn; lia|].
    unfold resolve. simpl. rewrite Hpending. split; [done|].
    unfold reached. by rewrite Hsame, Hsame'. }
  split_and!; [done|done|by apply run_keeps_settled].
Qed.

Lemma quiet_step (st : Launch) (ev : Event) :
  ProTrace.noMarker ev = true → pendingChecks st = 0%nat →
  pendingChecks (step env st ev) = 0%nat
  ∧ constructed (step env st ev) = constructed st
  ∧ (∀ handle, settled (step env st ev) = Some (success handle) →
               settled st = Some (success handle)).
Proof.
  destruct st as [err result pending handles reported lines]. simpl. intros Hev ->.
  destruct ev as [chunk|chunk|message|code|folderExists]; simpl in *; try done.
  - unfold onStdout. simpl. apply negb_true_iff in Hev. rewrite Hev.
    destruct (onProgress env && _); [destruct (_ !! _)|]; done.
  - unfold resolve. simpl. split_and!; [done..|]. by destruct result.
  - unfold resolve. simpl. split_and!; [done..|]. by destruct result.
Qed.

(** X15 ([launchPro], lines 86-111). Without a [stdout] chunk that holds
    the readiness marker no check is ever scheduled: no handle is
    constructed and the launch does not succeed, whatever else happens,
    a marker split over two chunks included. *)
Theorem no_marker_no_session (launchConfigFound : bool) (events : list Event) :
  Forall (λ ev, ProTrace.noMarker ev = true) events →
  let st := launchPro env launchConfigFound events in
  pendingChecks st = 0%nat
  ∧ constructed st = []
  ∧ ∀ handle, settled st ≠ Some (success handle).
Proof.
  intros Hquiet st. subst st. unfold launchPro. destruct launchConfigFound; [|done].
  assert (∀ st0, pendingChecks st0 = 0%nat →
            pendingChecks (run env st0 events) = 0%nat
            ∧ constructed (run env st0 events) = constructed st0
            ∧ (∀ handle, settled (run env st0 events) = Some (success handle) →
                         settled st0 = Some (success handle))) as Hgen.
  { induction Hquiet as [|ev events Hev Hquiet IH]; intros st0 Hp; [done|].
    change (run env st0 (ev :: events)) with (run env (step env st0 ev) events).
    destruct (quiet_step st0 ev Hev Hp) as (Hp1 & Hc1 & Hs1).
    destruct (IH _ Hp1) as (Hp2 & Hc2 & Hs2).
    split_and!; [done|congruence|]. intros handle Hh. by apply Hs1, Hs2. }
  destruct (Hgen initial eq_refl) as (Hp & Hc & Hs).
  split_and!; [done|done|]. intros handle Hh. by apply Hs in Hh.
Qed.

Lemma stdout_step_log (st : Launch) (chunk : string) :
  logged (onStdout env st chunk) = logged st ++ ["PHPStan Pro: " +:+ chunk]
  ∧ reports (onStdout env st chunk)
    = reports st ++ (if onProgress env
                     then option_list (progressOf <$> last (progressMatches chunk))
                     else []).
Proof.
  unfold onStdout. destruct (onProgress env) eqn:Hcallback; simpl.
  - destruct (last (progressMatches chunk)) as [m|] eqn:Hlast.
    + apply last_match_lookup in Hlast as [Hlen Hm]. rewrite Hlen, Hm. done.
    + apply last_None in Hlast. rewrite Hlast. simpl.
      destruct (Js.includes _ _); simpl; by rewrite app_nil_r.
  - destruct (Js.includes _ _); simpl; by rewrite app_nil_r.
Qed.

(** X16 ([launchPro], lines 67-85). Whatever was logged and reported
    before, in a launch the line of lines 40-48, the handlers add to the
    log one line for every [stdout] chunk, in order, behind the prefix of
    line 75, and nothing else, whatever the state of the launch; and
    [onProgress], when given, is called once for each chunk in which the
    pattern matches, with groups 1, 2 and 3 of the last match of that
    chunk, each through [parseInt]. *)
Theorem every_chunk_is_logged_and_last_progress_reported
    (st : Launch) (events : list Event) :
  logged (run env st events)
  = logged st ++ ((λ chunk, "PHPStan Pro: " +:+ chunk) <$> ProTrace.stdoutChunks events)
  ∧ reports (run env st events)
    = reports st ++ (if onProgress env then ProTrace.lastProgress events else []).
Proof.
  revert st. induction events as [|ev events IH]; intros st.
  { simpl. destruct (onProgress env); by rewrite !app_nil_r. }
  change (run env st (ev :: events)) with (run env (step env st ev) events).
  destruct (IH (step env st ev)) as [-> ->].
  destruct ev as [chunk|chunk|message|code|folderExists]; simpl.
  - destruct (stdout_step_log st chunk) as [-> ->].
    unfold ProTrace.lastProgress. simpl. rewrite <- !app_assoc. split; [done|].
    destruct (onProgress env); [|done].
    by destruct (last (progressMatches chunk)).
  - done.
  - unfold resolve. done.
  - unfold resolve. done.
  - unfold onGraceElapsed. destruct (pendingChecks st); [done|].
    by destruct folderExists.
Qed.

End LaunchHistories.

Lemma launch_result_is_final_witness :
  Pro.settled
    (Pro.run Samples.withProgress Pro.initial
       ([Pro.StderrData "Address already in use"; Pro.ProcExit None]
        ++ [Pro.StdoutData Samples.readyChunk; Pro.GraceElapsed true]))
  = Some (Pro.error "PHPStan Pro exited with code ?: Address already in use").
Proof.
  apply (launch_result_is_final Samples.withProgress Pro.initial
           [Pro.StderrData "Address already in use"; Pro.ProcExit None]
           [Pro.StdoutData Samples.readyChunk; Pro.GraceElapsed true]).
  vm_compute. reflexivity.
Defined.

Lemma failure_message_carries_stderr_witness :
  let events := [Pro.StderrData "Address "; Pro.StdoutData "1/4 [=>  ] 25%";
                 Pro.StderrData "already in use"] in
  (∀ code,
      Pro.settled (Pro.launchPro Samples.withProgress true (events ++ [Pro.ProcExit code]))
      = Some (Pro.error ("PHPStan Pro exited with code " +:+ Pro.showCode code +:+ ": "
                         +:+ ProTrace.stderrText events)))
  ∧ (∀ message,
      Pro.settled (Pro.launchPro Samples.withProgress true (events ++ [Pro.ProcError message]))
      = Some (Pro.error ("Failed to launch PHPStan Pro: " +:+ message +:+ " - "
                         +:+ ProTrace.stderrText events))).
Proof.
  apply (failure_message_carries_stderr Samples.withProgress
           [Pro.StderrData "Address "; Pro.StdoutData "1/4 [=>  ] 25%";
            Pro.StderrData "already in use"]).
  repeat constructor.
Defined.

Lemma present_folder_starts_a_pending_launch_witness :
  let reached := Pro.run Samples.withProgress
                   (Pro.step Samples.withProgress Pro.initial (Pro.StdoutData Samples.readyChunk))
                   [Pro.StderrData "Note: Using configuration file phpstan.neon."] in
  let checked := Pro.step Samples.withProgress reached (Pro.GraceElapsed true) in
  let handle := {| Pro._configDirPath := Pro.configDirPath Samples.withProgress |} in
  Pro.settled checked = Some (Pro.success handle)
  ∧ Pro.constructed checked = Pro.constructed Pro.initial ++ [handle]
  ∧ Pro.settled (Pro.run Samples.withProgress checked [Pro.ProcExit None])
    = Some (Pro.success handle).
Proof.
  apply (present_folder_starts_a_pending_launch Samples.withProgress Pro.initial
           Samples.readyChunk [Pro.StderrData "Note: Using configuration file phpstan.neon."]
           [Pro.ProcExit None]).
  - right. vm_compute. reflexivity.
  - vm_compute. reflexivity.
  - vm_compute. reflexivity.
Defined.

(** The marker split over two chunks. *)
Lemma no_marker_no_session_witness :
  let st := Pro.launchPro Samples.withProgress true
              [Pro.StdoutData "Open your web "; Pro.StdoutData "browser at: http://127.0.0.1:11111";
               Pro.GraceElapsed true] in
  Pro.pendingChecks st = 0%nat
  ∧ Pro.constructed st = []
  ∧ ∀ handle, Pro.settled st ≠ Some (Pro.success handle).
Proof.
  apply (no_marker_no_session Samples.withProgress true
           [Pro.StdoutData "Open your web "; Pro.StdoutData "browser at: http://127.0.0.1:11111";
            Pro.GraceElapsed true]).
  repeat constructor.
Defined.

(** ** Numbers in progress reports *)

(** X17 ([launchPro], lines 69-84). The three groups of a progress match
    are non-empty runs of digits, so [parseInt] never yields [NaN] or a
    negative number on them: every record built from a match of a chunk,
    and so every record [onProgress] receives during a launch, has a
    numeric, non-negative [done], [total] and [percentage]. *)
Theorem progress_reports_are_counting_numbers :
  (∀ chunk, Forall ProTrace.countingProgress (Pro.progressOf <$> Pro.progressMatches chunk))
  ∧ (∀ env launchConfigFound events,
        Forall ProTrace.countingProgress
          (Pro.reports (Pro.launchPro env launchConfigFound events))).
Proof.
  assert (∀ chunk m, m ∈ Pro.progressMatches chunk →
            ProTrace.countingProgress (Pro.progressOf m)) as Hmatch.
  { intros chunk m Hin. apply matchAllFrom_matchAt in Hin as (s0 & m0 & Hat & <-).
    apply progress_match_groups in Hat as (d1 & d2 & d3 & H1 & H2 & H3 & <- & <- & <-).
    unfold ProTrace.countingProgress, Pro.progressOf. simpl.
    split_and!; by apply parseInt_digitRun. }
  split.
  - intros chunk. apply Forall_fmap, Forall_forall. intros m Hin. by eapply Hmatch.
  - intros env found events. unfold Pro.launchPro. destruct found; [|constructor].
    assert (∀ st, Forall ProTrace.countingProgress (Pro.reports st) →
              Forall ProTrace.countingProgress (Pro.reports (Pro.run env st events))) as Hgen.
    { induction events as [|ev events IH]; intros st Hst; [done|].
      change (Pro.run env st (ev :: events)) with (Pro.run env (Pro.step env st ev) events).
      apply IH. destruct ev as [chunk|chunk|message|code|folderExists].
      - change (Pro.step env st (Pro.StdoutData chunk)) with (Pro.onStdout env st chunk).
        destruct (stdout_step_log env st chunk) as [_ ->]. apply Forall_app. split; [done|].
        destruct (Pro.onProgress env); [|constructor].
        destruct (last (Pro.progressMatches chunk)) as [m|] eqn:Hlast; [|constructor].
        simpl. apply Forall_singleton. eapply Hmatch. by apply last_Some_elem_of.
      - done.
      - done.
      - done.
      - simpl. unfold Pro.onGraceElapsed. destruct (Pro.pendingChecks st); [done|].
        by destruct folderExists. }
    apply Hgen. constructor.
Qed.
